(** * Shallow embedding of the PET + PCR + CO2 calculator ([app.py]).

    The pandas DataFrames of the script are modelled as frames: a list of
    column names and a list of rows, each row a list of cells aligned with
    the columns.  A cell is a string, a number or a missing value (NaN).
    Python floats are modelled as exact rationals [Q]: the development
    checks the arithmetic formulas and the data flow, not IEEE rounding.

    Two parts of pandas are not written out and are left as parameters of
    the section: how [pd.to_numeric] parses a string ([parse_num]) and how
    [astype(str)] prints a number ([num_str]). Every theorem holds for all
    choices of these two functions. *)

From Stdlib Require Import List String Ascii Bool Arith Lia ZArith QArith Permutation Sorted.
Import ListNotations.
Open Scope string_scope.
Open Scope nat_scope.

(** ** Cells, errors and the result monad *)

Inductive cell : Type :=
  | CStr (s : string)
  | CNum (q : Q)
  | CNaN.

(** The exceptions raised by the core: [normalize_cols]' ValueError
    (missing canonical fields, headers found), [load_purchase_csv]'s
    ValueError (headers found) and a pandas KeyError on a missing column. *)
Inductive pyerr : Type :=
  | SchemaError (missing found : list string)
  | PurchaseSchemaError (found : list string)
  | KeyError (c : string).

Definition res (A : Type) : Type := (pyerr + A)%type.

Definition ret {A} (a : A) : res A := inr a.
Definition raise {A} (e : pyerr) : res A := inl e.
Definition bind {A B} (m : res A) (k : A -> res B) : res B :=
  match m with inl e => inl e | inr a => k a end.

Notation "'let*' x ':=' m 'in' k" := (bind m (fun x => k))
  (at level 200, x name, m at level 100, k at level 200).

(** ** Python's [str.strip()] on ASCII text *)

Definition is_py_space (a : ascii) : bool :=
  let n := nat_of_ascii a in
  ((9 <=? n) && (n <=? 13))%nat || ((28 <=? n) && (n <=? 32))%nat.

Fixpoint lstrip (s : string) : string :=
  match s with
  | EmptyString => EmptyString
  | String a s' => if is_py_space a then lstrip s' else s
  end.

Fixpoint rstrip (s : string) : string :=
  match s with
  | EmptyString => EmptyString
  | String a s' =>
      let r := rstrip s' in
      match r with
      | EmptyString => if is_py_space a then EmptyString else String a EmptyString
      | _ => String a r
      end
  end.

Definition strip (s : string) : string := rstrip (lstrip s).

(** [s.endswith(suf)] *)
Definition ends_with (suf s : string) : bool :=
  let n := String.length s in
  let m := String.length suf in
  (m <=? n) && String.eqb (substring (n - m) m s) suf.

(** ** Frames *)

Record frame : Type := mkFrame {
  fcols : list string;
  frows : list (list cell)
}.

(** [x in df.columns] *)
Definition mem (x : string) (xs : list string) : bool :=
  existsb (String.eqb x) xs.

(** position of the first column named [c] *)
Fixpoint col_index (c : string) (cols : list string) : option nat :=
  match cols with
  | [] => None
  | x :: xs => if String.eqb x c then Some 0 else option_map S (col_index c xs)
  end.

Definition nth_cell (i : nat) (r : list cell) : cell := nth i r CNaN.

Fixpoint replace_nth {A} (i : nat) (v : A) (l : list A) : list A :=
  match l, i with
  | [], _ => []
  | _ :: xs, 0 => v :: xs
  | x :: xs, S j => x :: replace_nth j v xs
  end.

Fixpoint zip_with {A B C} (f : A -> B -> C) (l1 : list A) (l2 : list B) : list C :=
  match l1, l2 with
  | a :: l1', b :: l2' => f a b :: zip_with f l1' l2'
  | _, _ => []
  end.

(** [df[c]] *)
Definition get_col (c : string) (df : frame) : res (list cell) :=
  match col_index c (fcols df) with
  | Some i => ret (map (nth_cell i) (frows df))
  | None => raise (KeyError c)
  end.

(** [df[c] = vals]: replaces the column, or appends it when absent *)
Definition set_col (c : string) (vals : list cell) (df : frame) : frame :=
  match col_index c (fcols df) with
  | Some i => mkFrame (fcols df) (zip_with (fun r v => replace_nth i v r) (frows df) vals)
  | None => mkFrame (fcols df ++ [c])%list (zip_with (fun r v => r ++ [v])%list (frows df) vals)
  end.

(** [df[c] = f(df[c])] for an elementwise [f] *)
Definition map_col (c : string) (f : cell -> cell) (df : frame) : res frame :=
  let* v := get_col c df in ret (set_col c (map f v) df).

(** ** [normalize_cols] *)

Definition catalog_candidates : list (string * list string) := [
  ("Vendor Part Number",
     ["Vendor Part Number"; "Vendor Part #"; "Vendor Part No"; "Part Number";
      "Part #"; "VendorPN"; "Vendor PN"]);
  ("Item Description",
     ["Item Description"; "Description"; "Item"; "Item Desc"]);
  ("Weight (g)",
     ["Weight (g)"; "Gram Weight"; "Gram Weight (g)"; "Grams"; "Weight Grams";
      "Weight_g"; "Weight"]);
  ("PCR %",
     ["PCR %"; "PCR%"; "PCR Content"; "PCR Content %"; "% PCR"; "Post-Consumer %"])
].

(** [for opt in options: if opt in df.columns: ... break] *)
Definition first_present (options cols : list string) : option string :=
  find (fun o => mem o cols) options.

(** the [resolved] dict, in insertion order *)
Fixpoint resolve (cands : list (string * list string)) (cols : list string)
  : list (string * string) :=
  match cands with
  | [] => []
  | (target, options) :: rest =>
      match first_present options cols with
      | Some opt => (target, opt) :: resolve rest cols
      | None => resolve rest cols
      end
  end.

(** [[k for k in col_map_candidates.keys() if k not in resolved]] *)
Definition missing_fields (cands : list (string * list string))
    (resolved : list (string * string)) : list string :=
  filter (fun k => negb (mem k (map fst resolved))) (map fst cands).

(** [df.rename(columns=mapping)]; a dict built from a list keeps the last
    binding of a key *)
Definition rename_col (mapping : list (string * string)) (c : string) : string :=
  match find (fun p => String.eqb (fst p) c) (rev mapping) with
  | Some p => snd p
  | None => c
  end.

Definition rename (mapping : list (string * string)) (df : frame) : frame :=
  mkFrame (map (rename_col mapping) (fcols df)) (frows df).

Definition normalize_cols (df : frame) : res frame :=
  let cols := map strip (fcols df) in
  let df := mkFrame cols (frows df) in
  let resolved := resolve catalog_candidates cols in
  match missing_fields catalog_candidates resolved with
  | [] => ret (rename (map (fun p => (snd p, fst p)) resolved) df)
  | missing => raise (SchemaError missing cols)
  end.

(** ** Elementwise pandas operations on cells *)

Definition isna (c : cell) : bool :=
  match c with CNaN => true | _ => false end.

(** [fillna(v)] *)
Definition fillna (v c : cell) : cell :=
  match c with CNaN => v | _ => c end.

(** [clip(lower=lo, upper=hi)]; NaN stays NaN.  It is only applied to the
    output of [to_numeric], which holds no strings. *)
Definition clip (lo hi : Q) (c : cell) : cell :=
  match c with
  | CNum q =>
      if negb (Qle_bool lo q) then CNum lo
      else if negb (Qle_bool q hi) then CNum hi
      else CNum q
  | _ => c
  end.

(** [.str.strip()]: a non-string value gives NaN *)
Definition str_strip (c : cell) : cell :=
  match c with CStr s => CStr (strip s) | _ => CNaN end.

(** value equality used by [merge] and [groupby]; pandas joins NaN keys
    with NaN keys *)
Definition cell_eqb (a b : cell) : bool :=
  match a, b with
  | CStr x, CStr y => String.eqb x y
  | CNum x, CNum y => Qeq_bool x y
  | CNaN, CNaN => true
  | _, _ => false
  end.

(** sort order of group keys (all keys are strings in this program) *)
Definition cell_ltb (a b : cell) : bool :=
  match a, b with
  | CStr x, CStr y => String.ltb x y
  | _, _ => false
  end.

(** arithmetic on numeric cells; NaN propagates *)
Definition cadd (a b : cell) : cell :=
  match a, b with CNum x, CNum y => CNum (x + y) | _, _ => CNaN end.
Definition cmul (a b : cell) : cell :=
  match a, b with CNum x, CNum y => CNum (x * y) | _, _ => CNaN end.
Definition cdiv (a b : cell) : cell :=
  match a, b with CNum x, CNum y => CNum (x / y) | _, _ => CNaN end.

(** ** Frame operations *)

Fixpoint col_indices (subset cols : list string) : res (list nat) :=
  match subset with
  | [] => ret []
  | c :: rest =>
      match col_index c cols with
      | Some i => let* is := col_indices rest cols in ret (i :: is)
      | None => raise (KeyError c)
      end
  end.

(** [df.dropna(subset=...)] *)
Definition dropna (subset : list string) (df : frame) : res frame :=
  let* idxs := col_indices subset (fcols df) in
  ret (mkFrame (fcols df)
         (filter (fun r => forallb (fun i => negb (isna (nth_cell i r))) idxs)
                 (frows df))).

Fixpoint select {A} (keep : list bool) (r : list A) : list A :=
  match keep, r with
  | k :: ks, x :: xs => if k then x :: select ks xs else select ks xs
  | _, _ => []
  end.

(** [df.drop(columns=names)] *)
Definition drop_cols (names : list string) (df : frame) : frame :=
  let keep := map (fun c => negb (mem c names)) (fcols df) in
  mkFrame (select keep (fcols df)) (map (select keep) (frows df)).

(** distinct values in order of first appearance *)
Definition dedup (l : list cell) : list cell :=
  fold_left (fun acc x => if existsb (cell_eqb x) acc then acc else (acc ++ [x])%list) l [].

Fixpoint insert_sorted (x : cell) (l : list cell) : list cell :=
  match l with
  | [] => [x]
  | y :: ys => if cell_ltb y x then y :: insert_sorted x ys else x :: y :: ys
  end.

Definition sort_keys (l : list cell) : list cell := fold_right insert_sorted [] l.

Definition group_sum (k : cell) (pairs : list (cell * cell)) : cell :=
  fold_left (fun acc p => if cell_eqb (fst p) k then cadd acc (snd p) else acc)
            pairs (CNum 0).

(** [df.groupby(key, as_index=False)[val].sum()]: sorted keys, NaN keys
    dropped, one row per key *)
Definition groupby_sum (key val : string) (df : frame) : res frame :=
  let* ks := get_col key df in
  let* vs := get_col val df in
  let pairs := combine ks vs in
  let keys := sort_keys (dedup (filter (fun c => negb (isna c)) ks)) in
  ret (mkFrame [key; val] (map (fun k => [k; group_sum k pairs]) keys)).

(** [left.merge(right, on=key, how="left", suffixes=("", rsuf))] *)
Definition merge_left (left right : frame) (key rsuf : string) : res frame :=
  match col_index key (fcols left), col_index key (fcols right) with
  | Some li, Some ri =>
      let rkeep := filter (fun j => negb (j =? ri)) (seq 0 (List.length (fcols right))) in
      let rnames :=
        map (fun j => let c := nth j (fcols right) "" in
                      if mem c (fcols left) then c ++ rsuf else c) rkeep in
      let rows :=
        flat_map (fun lr =>
          match filter (fun rr => cell_eqb (nth_cell li lr) (nth_cell ri rr)) (frows right) with
          | [] => [(lr ++ map (fun _ => CNaN) rkeep)%list]
          | ms => map (fun rr => (lr ++ map (fun j => nth_cell j rr) rkeep)%list) ms
          end) (frows left) in
      ret (mkFrame (fcols left ++ rnames)%list rows)
  | _, _ => raise (KeyError key)
  end.

(** ** The pipeline *)

Definition PN := "Vendor Part Number".
Definition DESC := "Item Description".
Definition WEIGHT := "Weight (g)".
Definition PCR := "PCR %".
Definition QTY := "Quantity".

Definition GRAMS_PER_LB : Q := 45359237 # 100000.
Definition KG_PER_LB : Q := 45359237 # 100000000.

Definition pn_candidates : list string :=
  ["Vendor Part Number"; "Part Number"; "Part #"; "VendorPN"; "Vendor PN"].
Definition qty_candidates : list string :=
  ["Quantity"; "Qty"; "Quantity Purchased"; "Units"; "Count"].

Section Pipeline.

(** how [pd.to_numeric] reads a string ([None]: not a number) *)
Variable parse_num : string -> option Q.
(** how [astype(str)] prints a number *)
Variable num_str : Q -> string.

(** [pd.to_numeric(x, errors="coerce")] *)
Definition to_numeric (c : cell) : cell :=
  match c with
  | CStr s => match parse_num s with Some q => CNum q | None => CNaN end
  | CNum q => CNum q
  | CNaN => CNaN
  end.

(** [astype(str)]; a missing value prints as ["nan"] *)
Definition astype_str (c : cell) : cell :=
  CStr (match c with CStr s => s | CNum q => num_str q | CNaN => "nan" end).

Definition str_col (c : cell) : cell := str_strip (astype_str c).

(** [load_xlsx], from the frame read by [pd.read_excel] *)
Definition load_xlsx (raw : frame) : res frame :=
  let* df := normalize_cols raw in
  let* df := map_col PN str_col df in
  let* df := map_col DESC str_col df in
  let* df := map_col WEIGHT to_numeric df in
  let* df := map_col PCR to_numeric df in
  let* df := dropna [PN; WEIGHT; PCR] df in
  let* df := map_col PCR (clip 0 100) df in
  ret (set_col QTY (repeat (CNum 0) (List.length (frows df))) df).

(** [load_purchase_csv], from the frame read by [pd.read_csv] *)
Definition load_purchase_csv (raw : frame) : res frame :=
  let cols := map strip (fcols raw) in
  let df := mkFrame cols (frows raw) in
  match first_present pn_candidates cols, first_present qty_candidates cols with
  | Some pn, Some qty =>
      let df := rename [(pn, PN); (qty, QTY)] df in
      let* df := map_col PN str_col df in
      let* df := map_col QTY (fun c => fillna (CNum 0) (to_numeric c)) df in
      groupby_sum PN QTY df
  | _, _ => raise (PurchaseSchemaError cols)
  end.

(** the purchase merge on the working copy (lines 162-165) *)
Definition apply_purchases (work purchases : frame) : res frame :=
  let* w := merge_left work purchases PN "_csv" in
  let* qcsv := get_col "Quantity_csv" w in
  let* q := get_col QTY w in
  let w := set_col QTY (zip_with (fun a b => fillna b a) qcsv q) w in
  ret (drop_cols (filter (fun c => ends_with "_csv" c) (fcols w)) w).

(** the calculator's defensive re-derivation of its (editable) input
    (lines 225-228) *)
Definition coerce_edited (edited : frame) : res frame :=
  let* e := map_col QTY (fun c => fillna (CNum 0) (to_numeric c)) edited in
  let* e := map_col WEIGHT (fun c => fillna (CNum 0) (to_numeric c)) e in
  map_col PCR (fun c => clip 0 100 (fillna (CNum 0) (to_numeric c))) e.

(** the detail table (lines 264-268), computed from the coerced [edited] *)
Definition detail_table (pet_pcr_benefit : Q) (edited : frame) : res frame :=
  let* d := coerce_edited edited in
  let* w := get_col WEIGHT d in
  let* q := get_col QTY d in
  let d := set_col "Total Weight (lb)"
             (map (fun c => cdiv c (CNum GRAMS_PER_LB)) (zip_with cmul w q)) d in
  let* tw := get_col "Total Weight (lb)" d in
  let* p := get_col PCR d in
  let d := set_col "PCR Weight (lb)"
             (zip_with (fun t c => cmul t (cdiv c (CNum 100))) tw p) d in
  let* pw := get_col "PCR Weight (lb)" d in
  let d := set_col "PCR Weight (kg)" (map (fun c => cmul c (CNum KG_PER_LB)) pw) d in
  let* pk := get_col "PCR Weight (kg)" d in
  ret (set_col "Avoided CO₂ (metric tons)"
         (map (fun c => cdiv (cmul c (CNum pet_pcr_benefit)) (CNum 1000)) pk) d).

(** the working copy: the loaded catalog, with the purchase ledger merged in
    when one is uploaded (lines 156-165) *)
Definition build_work (db : frame) (purchase_csv : option frame) : res frame :=
  match purchase_csv with
  | None => ret db
  | Some raw =>
      let* purchases := load_purchase_csv raw in
      apply_purchases db purchases
  end.

End Pipeline.

(** ** Reading the model *)

(** the value of column [c] in row [r] of [df] *)
Definition field (df : frame) (c : string) (r : list cell) : cell :=
  match col_index c (fcols df) with Some i => nth_cell i r | None => CNaN end.

(** the number [fillna(0)] makes of a coerced cell *)
Definition coerced (parse_num : string -> option Q) (c : cell) : Q :=
  match fillna (CNum 0) (to_numeric parse_num c) with CNum q => q | _ => 0 end.

Definition calc_columns : list string := [PN; DESC; WEIGHT; PCR; QTY].

Definition detail_columns : list string :=
  (calc_columns ++ ["Total Weight (lb)"; "PCR Weight (lb)"; "PCR Weight (kg)";
                    "Avoided CO₂ (metric tons)"])%list.

(** what the calculator's coercion makes of one row of the editor's frame *)
Definition coerce_row (parse_num : string -> option Q) (r : list cell) : list cell :=
  [nth_cell 0 r; nth_cell 1 r; CNum (coerced parse_num (nth_cell 2 r));
   clip 0 100 (CNum (coerced parse_num (nth_cell 3 r)));
   CNum (coerced parse_num (nth_cell 4 r))].

(** the canonical fields none of whose aliases is among [cols] *)
Definition unresolved_fields (cands : list (string * list string)) (cols : list string)
  : list string :=
  map fst (filter (fun p => negb (existsb (fun a => mem a cols) (snd p))) cands).

(** ASCII lower case, to speak of headers that differ only in case *)
Definition lower_ascii (a : ascii) : ascii :=
  let n := nat_of_ascii a in
  if (65 <=? n) && (n <=? 90) then ascii_of_nat (n + 32) else a.

Fixpoint lower (s : string) : string :=
  match s with
  | EmptyString => EmptyString
  | String a s' => String (lower_ascii a) (lower s')
  end.

(** a ledger row's trimmed part number and coerced quantity, read at the
    positions of the bound part-number and quantity headers *)
Definition ledger_key (num_str : Q -> string) (ipn : nat) (r : list cell) : cell :=
  str_col num_str (nth_cell ipn r).

Definition ledger_qty (parse_num : string -> option Q) (iq : nat) (r : list cell) : Q :=
  coerced parse_num (nth_cell iq r).

(** the sum of the coerced quantities of the ledger rows with key [k], in
    row order *)
Definition ledger_total parse_num num_str ipn iq (rows : list (list cell)) (k : cell) : Q :=
  fold_left (fun acc r =>
               if cell_eqb (ledger_key num_str ipn r) k
               then (acc + ledger_qty parse_num iq r)%Q else acc) rows 0%Q.

(** an aggregated purchase set: one row per part number *)
Definition purchase_frame (l : list (string * Q)) : frame :=
  mkFrame [PN; QTY] (map (fun kq => [CStr (fst kq); CNum (snd kq)]) l).

(** the ["Quantity_csv"] cell the merge gives a catalog row with part
    number [key] *)
Definition csv_qty (l : list (string * Q)) (key : cell) : cell :=
  match find (fun kq => cell_eqb key (CStr (fst kq))) l with
  | Some kq => CNum (snd kq)
  | None => CNaN
  end.

(** the quantity a catalog row with part number [key] and quantity [old]
    gets from the purchase set [l] *)
Definition merged_qty (l : list (string * Q)) (key old : cell) : cell :=
  match find (fun kq => cell_eqb key (CStr (fst kq))) l with
  | Some kq => CNum (snd kq)
  | None => old
  end.

(** the catalog rows whose part number is [k] *)
Definition rows_with_pn (df : frame) (k : string) : list (list cell) :=
  filter (fun r => cell_eqb (field df PN r) (CStr k)) (frows df).

(** the sum of a quantity column, NaN counting as 0 *)
Definition sum_qty (cs : list cell) : Q :=
  fold_right (fun c acc => match c with CNum x => (x + acc)%Q | _ => acc end) 0%Q cs.

(** ** The rest of the script *)

(** the part numbers of the purchase set that the catalog lacks:
    [sorted(list(set(purchases[PN]) - set(db[PN])))], kept only when it is
    not empty (lines 168-172) *)
Definition unmatched_pns (db purchases : frame) : res (option (list cell)) :=
  let* db_pns := get_col PN db in
  let* purchase_pns := get_col PN purchases in
  let missing :=
    sort_keys (filter (fun c => negb (existsb (cell_eqb c) db_pns)) (dedup purchase_pns)) in
  ret (match missing with [] => None | _ => Some missing end).

(** the summary metrics of the results panel (lines 230-248) *)
Record metrics : Type := mkMetrics {
  m_total_lbs : Q;
  m_total_kg : Q;
  m_pcr_lbs : Q;
  m_pcr_kg : Q;
  m_avoided_metric_tons : Q;
  m_baseline_avoided_metric_tons : Q;
  m_advantage_metric_tons : Q
}.

Section Script.

(** pandas' [str.contains(pat)]: whether the pattern (a regular expression,
    pandas' default) matches somewhere in the text *)
Variable str_contains : string -> string -> bool.

(** [series.str.lower().str.contains(s, na=False)] on one cell: a value
    that is not a string gives NaN, which [na=False] turns into false *)
Definition cell_lower_contains (s : string) (c : cell) : bool :=
  match c with CStr t => str_contains s (lower t) | _ => false end.

(** the search box (lines 192-198) *)
Definition search_view (search : string) (work : frame) : res frame :=
  if String.eqb (strip search) "" then ret work
  else
    let s := lower (strip search) in
    let* pns := get_col PN work in
    let* descs := get_col DESC work in
    let mask := zip_with orb (map (cell_lower_contains s) pns)
                             (map (cell_lower_contains s) descs) in
    ret (mkFrame (fcols work) (select mask (frows work))).

Variable parse_num : string -> option Q.

(** the results panel, from the calculator's input (lines 225-248) *)
Definition results (pet_pcr_benefit current_pcr_pct : Q) (edited : frame) : res metrics :=
  let* e := coerce_edited parse_num edited in
  let* w := get_col WEIGHT e in
  let* q := get_col QTY e in
  let* p := get_col PCR e in
  let total_grams := sum_qty (zip_with cmul w q) in
  let total_lbs := (total_grams / GRAMS_PER_LB)%Q in
  let total_kg := (total_lbs * KG_PER_LB)%Q in
  let pcr_grams :=
    sum_qty (zip_with cmul (zip_with cmul w q) (map (fun c => cdiv c (CNum 100)) p)) in
  let pcr_lbs := (pcr_grams / GRAMS_PER_LB)%Q in
  let pcr_kg := (pcr_lbs * KG_PER_LB)%Q in
  let avoided_kg := (pcr_kg * pet_pcr_benefit)%Q in
  let avoided_metric_tons := (avoided_kg / 1000)%Q in
  let baseline_pcr_kg := (total_kg * (current_pcr_pct / 100))%Q in
  let baseline_avoided_metric_tons := (baseline_pcr_kg * pet_pcr_benefit / 1000)%Q in
  ret (mkMetrics total_lbs total_kg pcr_lbs pcr_kg avoided_metric_tons
         baseline_avoided_metric_tons (avoided_metric_tons - baseline_avoided_metric_tons)%Q).

End Script.

(** [a] comes no later than [b] in the order [sort_keys] sorts by *)
Definition cell_le (a b : cell) : Prop := cell_ltb b a = false.

(** a sum over the rows of a frame *)
Definition qsum (f : list cell -> Q) (rows : list (list cell)) : Q :=
  fold_right (fun r acc => (f r + acc)%Q) 0%Q rows.

(** the PCR% the calculator uses for a row of the editor's frame *)
Definition calc_pcr (parse_num : string -> option Q) (r : list cell) : Q :=
  match clip 0 100 (CNum (coerced parse_num (nth_cell 3 r))) with CNum p => p | _ => 0%Q end.

(** ** The detail table over pandas' float values *)

(** A float column value: a finite number, an infinity of either sign
    ([FInf true] is [-inf]) or NaN.  [pd.to_numeric] turns the text "inf"
    into an infinity, so a ledger quantity or a catalog weight can be one.
    Rounding is not modelled. *)
Inductive fnum : Type :=
| FFin (q : Q)
| FInf (neg : bool)
| FNaN.

Definition is_finite (v : fnum) : bool :=
  match v with FFin _ => true | _ => false end.

(** IEEE 754 multiplication: 0 times an infinity is NaN *)
Definition fmul (a b : fnum) : fnum :=
  match a, b with
  | FNaN, _ | _, FNaN => FNaN
  | FFin x, FFin y => FFin (x * y)
  | FFin x, FInf s | FInf s, FFin x =>
      if Qeq_bool x 0 then FNaN else FInf (xorb s (negb (Qle_bool 0 x)))
  | FInf s, FInf t => FInf (xorb s t)
  end.

(** IEEE 754 division by a positive finite constant (the code divides only
    by GRAMS_PER_LB, 100 and 1000) *)
Definition fdiv_pos (a : fnum) (c : Q) : fnum :=
  match a with FFin x => FFin (x / c) | _ => a end.

(** [fillna(0)] *)
Definition ffillna0 (v : fnum) : fnum :=
  match v with FNaN => FFin 0 | _ => v end.

(** [clip(lo, hi)]: infinities go to the bounds, NaN stays NaN *)
Definition fclip (lo hi : Q) (v : fnum) : fnum :=
  match v with
  | FFin x => if negb (Qle_bool lo x) then FFin lo
              else if negb (Qle_bool x hi) then FFin hi else FFin x
  | FInf true => FFin lo
  | FInf false => FFin hi
  | FNaN => FNaN
  end.

(** one row of the detail table (lines 264-268) computed from the editor's
    float weight [w], quantity [q] and PCR% [p] after the calculator's
    coercion (lines 226-228; [pd.to_numeric] leaves a float as it is):
    Total Weight (lb), PCR Weight (lb), PCR Weight (kg), Avoided CO₂ *)
Definition detail_row_f (pet_pcr_benefit : Q) (w q p : fnum) : list fnum :=
  let q := ffillna0 q in
  let w := ffillna0 w in
  let p := fclip 0 100 (ffillna0 p) in
  let tw := fdiv_pos (fmul w q) GRAMS_PER_LB in
  let pw := fmul tw (fdiv_pos p 100) in
  let pk := fmul pw (FFin KG_PER_LB) in
  [tw; pw; pk; fdiv_pos (fmul pk (FFin pet_pcr_benefit)) 1000].

(** ** Concrete inputs *)

(** a small stand-in for [pd.to_numeric] on strings: optionally signed
    decimal integers *)
Fixpoint parse_digits (s : string) (acc : Z) : option Z :=
  match s with
  | EmptyString => Some acc
  | String a s' =>
      let n := nat_of_ascii a in
      if (48 <=? n) && (n <=? 57)
      then parse_digits s' (acc * 10 + Z.of_nat (n - 48))%Z
      else None
  end.

Definition ex_parse (s : string) : option Q :=
  match s with
  | EmptyString => None
  | String "-" EmptyString => None
  | String "-" s' => option_map (fun z => inject_Z (- z)) (parse_digits s' 0)
  | _ => option_map inject_Z (parse_digits s 0)
  end.

Definition ex_num_str (q : Q) : string := "<number>".

(** a catalog with aliased headers, a negative and a too large PCR% and a
    row whose weight is not a number *)
Definition ex_catalog : frame :=
  mkFrame ["Part #"; "Description "; "Grams"; "PCR%"]
    [[CStr "A-1"; CStr "cap"; CNum 50; CNum (-5)];
     [CStr "B-2"; CStr "jar"; CStr "12"; CStr "140"];
     [CStr "C-3"; CStr "lid"; CStr "n/a"; CNum 30]].

Definition ex_catalog_loaded : frame :=
  mkFrame [PN; DESC; WEIGHT; PCR; QTY]
    [[CStr "A-1"; CStr "cap"; CNum 50; CNum 0; CNum 0];
     [CStr "B-2"; CStr "jar"; CNum 12; CNum 100; CNum 0]].

(** a frame as the editor may hand it to the calculator *)
Definition ex_edited_rows : list (list cell) :=
  [[CStr "A-1"; CStr "cap"; CNum (-5); CStr "250"; CStr "-3"];
   [CStr "B-2"; CStr "jar"; CNum 50; CNum 40; CNum 1000]].

(** a purchase ledger listing the same part twice, with padded headers and
    a quantity that is not a number *)
Definition ex_ledger : frame :=
  mkFrame [" Part #"; "Qty "]
    [[CStr "A-1"; CNum 100]; [CStr " A-1"; CNum 250]; [CStr "B-2"; CStr "ten"]].

Definition ex_ledger_dup : frame :=
  mkFrame [PN; QTY] [[CStr "A-1"; CNum 100]; [CStr "A-1"; CNum 250]].

(** purchases with a part number the catalog lacks *)
Definition ex_purchases : frame :=
  mkFrame [PN; QTY] [[CStr "A-1"; CNum 5]; [CStr "Z-9"; CNum 1]].

(** a calculator input with no negative weight or quantity *)
Definition ex_calc_rows : list (list cell) :=
  [[CStr "B-2"; CStr "jar"; CNum 50; CNum 40; CNum 1000];
   [CStr "A-1"; CStr "cap"; CStr "12"; CNum 100; CNum 3]].

(** plain substring search, a stand-in for [str.contains] on patterns
    without regular-expression syntax *)
Fixpoint ex_contains (pat s : string) : bool :=
  String.prefix pat s ||
  match s with EmptyString => false | String _ s' => ex_contains pat s' end.

(** ** Generic lemmas on frames *)

Lemma zip_with_map2 {A B C D} (f : B -> C -> D) (g : A -> B) (h : A -> C) (l : list A) :
  zip_with f (map g l) (map h l) = map (fun a => f (g a) (h a)) l.
Proof. induction l; simpl; congruence. Qed.

Lemma zip_with_map_r {A B C} (f : A -> B -> C) (h : A -> B) (l : list A) :
  zip_with f l (map h l) = map (fun a => f a (h a)) l.
Proof. induction l; simpl; congruence. Qed.

Lemma get_col_at c df i :
  col_index c (fcols df) = Some i ->
  get_col c df = inr (map (nth_cell i) (frows df)).
Proof. intros H; unfold get_col; rewrite H; reflexivity. Qed.

Lemma set_col_at c df (g : list cell -> cell) i :
  col_index c (fcols df) = Some i ->
  set_col c (map g (frows df)) df
  = mkFrame (fcols df) (map (fun r => replace_nth i (g r) r) (frows df)).
Proof.
  intros H; unfold set_col; rewrite H, zip_with_map_r; reflexivity.
Qed.

Lemma set_col_new c df (g : list cell -> cell) :
  col_index c (fcols df) = None ->
  set_col c (map g (frows df)) df
  = mkFrame (fcols df ++ [c])%list (map (fun r => (r ++ [g r])%list) (frows df)).
Proof.
  intros H; unfold set_col; rewrite H, zip_with_map_r; reflexivity.
Qed.

Lemma map_col_at c f df i :
  col_index c (fcols df) = Some i ->
  map_col c f df
  = inr (mkFrame (fcols df) (map (fun r => replace_nth i (f (nth_cell i r)) r) (frows df))).
Proof.
  intros H; unfold map_col; rewrite (get_col_at _ _ _ H); simpl.
  rewrite map_map, (set_col_at _ _ (fun r => f (nth_cell i r)) _ H); reflexivity.
Qed.

Lemma Forall2_map_r {A B} (P : A -> B -> Prop) (F : A -> B) l :
  Forall (fun a => P a (F a)) l -> Forall2 P l (map F l).
Proof. induction 1; simpl; constructor; auto. Qed.

Lemma fill_coerced parse c :
  fillna (CNum 0) (to_numeric parse c) = CNum (coerced parse c).
Proof.
  unfold coerced; destruct c; simpl; try reflexivity; destruct (parse s); reflexivity.
Qed.

(** [clip] maps a number into the interval *)
Lemma clip_num (lo hi q : Q) :
  (lo <= hi)%Q -> exists q', clip lo hi (CNum q) = CNum q' /\ (lo <= q' <= hi)%Q.
Proof.
  intros Hlh; unfold clip.
  destruct (Qle_bool lo q) eqn:E1; simpl.
  - apply Qle_bool_iff in E1.
    destruct (Qle_bool q hi) eqn:E2; simpl.
    + apply Qle_bool_iff in E2; eauto.
    + exists hi; split; [reflexivity | split; [exact Hlh | apply Qle_refl]].
  - exists lo; split; [reflexivity | split; [apply Qle_refl | exact Hlh]].
Qed.


Lemma replace_nth_length {A} i (v : A) r : List.length (replace_nth i v r) = List.length r.
Proof. revert i; induction r; intros [|i]; simpl; auto. Qed.

Lemma nth_cell_replace_same i v r :
  nth_cell i (replace_nth i v r) = if i <? List.length r then v else CNaN.
Proof.
  unfold nth_cell; revert i; induction r as [|x r IH]; intros [|i]; simpl; auto;
  destruct i; reflexivity.
Qed.

Lemma nth_cell_replace_other i j v r :
  i <> j -> nth_cell j (replace_nth i v r) = nth_cell j r.
Proof.
  unfold nth_cell; revert i j; induction r as [|x r IH]; intros [|i] [|j] Hij;
    simpl; auto; try congruence.
Qed.

Lemma nth_cell_lt i r : nth_cell i r <> CNaN -> i < List.length r.
Proof.
  unfold nth_cell; intros H.
  destruct (Nat.lt_ge_cases i (List.length r)) as [|Hge]; auto.
  rewrite nth_overflow in H by exact Hge; congruence.
Qed.

Lemma nth_cell_app_l i r r' : i < List.length r -> nth_cell i (r ++ r')%list = nth_cell i r.
Proof. intros; unfold nth_cell; apply app_nth1; assumption. Qed.

Lemma col_index_nth c cols i :
  col_index c cols = Some i -> i < List.length cols /\ nth i cols "" = c.
Proof.
  revert i; induction cols as [|x xs IH]; intros i H; simpl in H; [discriminate|].
  destruct (String.eqb_spec x c).
  - injection H as <-; simpl; split; [lia | assumption].
  - destruct (col_index c xs) as [j|] eqn:E; simpl in H; [|discriminate].
    injection H as <-; destruct (IH j eq_refl); simpl; split; [lia | assumption].
Qed.

Lemma col_index_inj a b cols i :
  col_index a cols = Some i -> col_index b cols = Some i -> a = b.
Proof.
  intros Ha Hb; apply col_index_nth in Ha as [_ Ha]; apply col_index_nth in Hb as [_ Hb];
    congruence.
Qed.

Lemma col_index_app_some c cols extra i :
  col_index c cols = Some i -> col_index c (cols ++ extra)%list = Some i.
Proof.
  revert i; induction cols as [|x xs IH]; intros i H; simpl in *; [discriminate|].
  destruct (String.eqb x c); [assumption|].
  destruct (col_index c xs) as [j|]; simpl in H; [|discriminate].
  rewrite (IH j eq_refl); assumption.
Qed.

Lemma map_col_inv c f df df' :
  map_col c f df = inr df' ->
  exists i, col_index c (fcols df) = Some i /\
    df' = mkFrame (fcols df) (map (fun r => replace_nth i (f (nth_cell i r)) r) (frows df)).
Proof.
  unfold map_col, get_col; destruct (col_index c (fcols df)) as [i|] eqn:E;
    cbn [bind raise ret]; intros H; [|discriminate].
  injection H as <-; exists i; split; [reflexivity|].
  rewrite map_map; unfold set_col; rewrite E, zip_with_map_r; reflexivity.
Qed.

Lemma dropna_inv subset df df' :
  dropna subset df = inr df' ->
  exists idxs, col_indices subset (fcols df) = inr idxs /\
    df' = mkFrame (fcols df)
      (filter (fun r => forallb (fun i => negb (isna (nth_cell i r))) idxs) (frows df)).
Proof.
  unfold dropna; destruct (col_indices subset (fcols df)) as [|idxs];
    cbn [bind]; intros H; [discriminate|].
  injection H as <-; eauto.
Qed.

Lemma zip_with_repeat {A B C} (f : A -> B -> C) (v : B) l :
  zip_with f l (repeat v (List.length l)) = map (fun a => f a v) l.
Proof. induction l; simpl; congruence. Qed.

(** a numeric coercion yields a number or NaN, never a string *)
Definition numeric_or_nan (c : cell) : Prop :=
  match c with CStr _ => False | _ => True end.

Lemma to_numeric_numeric parse c : numeric_or_nan (to_numeric parse c).
Proof. destruct c; simpl; auto; destruct (parse s); simpl; auto. Qed.

(** the PCR% of a row is a number in [0, 100] *)
Definition pcr_in_range (df : frame) (r : list cell) : Prop :=
  exists p, field df PCR r = CNum p /\ (0 <= p <= 100)%Q.

Lemma load_xlsx_pcr_in_range parse ns raw out :
  load_xlsx parse ns raw = inr out -> Forall (pcr_in_range out) (frows out).
Proof.
  unfold load_xlsx; intros H.
  destruct (normalize_cols raw) as [|df1]; cbn [bind] in H; [discriminate|].
  destruct (map_col PN _ df1) as [|df2] eqn:E2; cbn [bind] in H; [discriminate|].
  apply map_col_inv in E2 as [i1 [Hi1 ->]].
  destruct (map_col DESC _ _) as [|df3] eqn:E3; cbn [bind] in H; [discriminate|].
  apply map_col_inv in E3 as [i2 [Hi2 ->]].
  destruct (map_col WEIGHT _ _) as [|df4] eqn:E4; cbn [bind] in H; [discriminate|].
  apply map_col_inv in E4 as [i3 [Hi3 ->]].
  destruct (map_col PCR _ _) as [|df5] eqn:E5; cbn [bind] in H; [discriminate|].
  apply map_col_inv in E5 as [i4 [Hi4 ->]].
  destruct (dropna _ _) as [|df6] eqn:E6; cbn [bind] in H; [discriminate|].
  apply dropna_inv in E6 as [idxs [Hidx ->]].
  destruct (map_col PCR _ _) as [|df7] eqn:E7; cbn [bind] in H; [discriminate|].
  apply map_col_inv in E7 as [i4' [Hi4' ->]].
  cbn [fcols frows] in *.
  rewrite Hi4 in Hi4'; injection Hi4' as <-.
  cbn [col_indices] in Hidx; rewrite Hi1, Hi3, Hi4 in Hidx; cbn [bind ret] in Hidx.
  injection Hidx as <-.
  assert (N14 : i1 <> i4) by (intros ->; pose proof (col_index_inj _ _ _ _ Hi1 Hi4); discriminate).
  assert (N24 : i2 <> i4) by (intros ->; pose proof (col_index_inj _ _ _ _ Hi2 Hi4); discriminate).
  assert (N34 : i3 <> i4) by (intros ->; pose proof (col_index_inj _ _ _ _ Hi3 Hi4); discriminate).
  (* the surviving rows before the quantity column is set *)
  set (rows7 := map _ (filter _ _)) in H.
  assert (R7 : Forall (fun r => (i4 < List.length r)%nat /\ exists p, nth_cell i4 r = CNum p /\ (0 <= p <= 100)%Q) rows7).
  { subst rows7; apply Forall_forall; intros r Hr.
    apply in_map_iff in Hr as [r6 [<- Hr6]].
    apply filter_In in Hr6 as [Hr6 Hkeep].
    cbn [forallb] in Hkeep; rewrite !andb_true_iff in Hkeep.
    destruct Hkeep as [_ [_ [Hnn _]]]; apply negb_true_iff in Hnn.
    apply in_map_iff in Hr6 as [r5 [<- _]].
    rewrite nth_cell_replace_same in Hnn |- *.
    rewrite nth_cell_replace_same, replace_nth_length.
    destruct (Nat.ltb i4 (List.length r5)) eqn:Hlt; [|discriminate].
    pose proof (to_numeric_numeric parse (nth_cell i4 r5)) as Hnum.
    destruct (to_numeric parse (nth_cell i4 r5)) as [s|q|]; simpl in Hnum, Hnn; try contradiction; try discriminate.
    rewrite replace_nth_length, Hlt.
    destruct (clip_num 0 100 q) as [p [Hp Hr]]; [discriminate|].
    split; [apply Nat.ltb_lt; exact Hlt|]; exists p; split; assumption. }
  unfold set_col in H; cbn [fcols frows] in H.
  destruct (col_index QTY (fcols df1)) as [iq|] eqn:Hq; injection H as <-;
    rewrite zip_with_repeat; apply Forall_map;
    eapply Forall_impl; [| exact R7 | | exact R7]; intros r [Hlt [p [Hp Hrange]]];
    exists p; unfold field; cbn [fcols].
  - rewrite Hi4, nth_cell_replace_other; [split; assumption|].
    intros ->; pose proof (col_index_inj _ _ _ _ Hq Hi4); discriminate.
  - rewrite (col_index_app_some _ _ _ _ Hi4), nth_cell_app_l by exact Hlt; split; assumption.
Qed.

Lemma coerce_edited_rows parse rows :
  Forall (fun r => List.length r = 5) rows ->
  coerce_edited parse (mkFrame calc_columns rows)
  = inr (mkFrame calc_columns (map (coerce_row parse) rows)).
Proof.
  intros Hlen; unfold coerce_edited.
  rewrite (map_col_at _ _ _ 4) by reflexivity; cbn [bind].
  rewrite (map_col_at _ _ _ 2) by reflexivity; cbn [bind].
  rewrite (map_col_at _ _ _ 3) by reflexivity; cbn [fcols frows].
  rewrite !map_map; do 2 f_equal.
  apply map_ext_in; intros r Hr.
  rewrite Forall_forall in Hlen; specialize (Hlen r Hr).
  destruct r as [|a [|b [|c [|d [|e [|? ?]]]]]]; simpl in Hlen; try discriminate.
  cbn -[to_numeric fillna clip]; rewrite !fill_coerced; reflexivity.
Qed.

Lemma coerce_row_pcr_in_range parse r :
  pcr_in_range (mkFrame calc_columns []) (coerce_row parse r).
Proof.
  unfold pcr_in_range, field, coerce_row; cbn -[clip].
  destruct (clip_num 0 100 (coerced parse (nth_cell 3 r))) as [p [Hp Hr]]; [discriminate|].
  rewrite Hp; eauto.
Qed.


(** ** Lemmas on header resolution *)

Lemma mem_In x xs : mem x xs = true <-> In x xs.
Proof.
  unfold mem; rewrite existsb_exists; split.
  - intros [y [Hy E]]; apply String.eqb_eq in E; subst; exact Hy.
  - intros H; exists x; split; [exact H | apply String.eqb_refl].
Qed.

Lemma mem_false x xs : mem x xs = false <-> ~ In x xs.
Proof.
  rewrite <- mem_In; destruct (mem x xs); split; intros; congruence.
Qed.

Lemma find_first {A} (f : A -> bool) l x :
  find f l = Some x <->
  exists pre post, l = (pre ++ x :: post)%list /\ f x = true /\ Forall (fun y => f y = false) pre.
Proof.
  induction l as [|y l IH]; simpl.
  - split; [discriminate|]. intros [[|? ?] [? [H _]]]; discriminate.
  - destruct (f y) eqn:Fy; split.
    + intros H; injection H as <-; exists [], l; simpl; auto.
    + intros [[|z pre] [post [Hl [Fx Hpre]]]]; simpl in Hl; injection Hl as -> ->;
        [reflexivity|]; inversion Hpre; congruence.
    + intros H; apply IH in H as [pre [post [-> [Fx Hpre]]]].
      exists (y :: pre), post; simpl; auto.
    + intros [[|z pre] [post [Hl [Fx Hpre]]]]; simpl in Hl; injection Hl as -> Hl;
        [congruence|]. apply IH; exists pre, post; inversion Hpre; auto.
Qed.

Lemma first_present_none opts cols :
  first_present opts cols = None <-> existsb (fun a => mem a cols) opts = false.
Proof.
  unfold first_present; induction opts as [|o opts IH]; simpl; [tauto|].
  destruct (mem o cols); simpl; [split; discriminate | exact IH].
Qed.

(** [first_present] only looks at which headers are present *)
Lemma first_present_ext opts cols cols' :
  (forall x, In x cols <-> In x cols') -> first_present opts cols = first_present opts cols'.
Proof.
  intros Hx; unfold first_present; induction opts as [|o opts IH]; simpl; [reflexivity|].
  replace (mem o cols') with (mem o cols); [destruct (mem o cols); congruence|].
  apply Bool.eq_iff_eq_true; rewrite !mem_In; apply Hx.
Qed.

Lemma mem_resolve k cands cols :
  mem k (map fst (resolve cands cols))
  = existsb (fun p => String.eqb k (fst p) && existsb (fun a => mem a cols) (snd p)) cands.
Proof.
  induction cands as [|[t opts] rest IH]; simpl; [reflexivity|].
  destruct (first_present opts cols) as [o|] eqn:E; simpl.
  - assert (existsb (fun a => mem a cols) opts = true) as ->.
    { destruct (existsb (fun a => mem a cols) opts) eqn:E'; [reflexivity|].
      apply first_present_none in E'; congruence. }
    rewrite andb_true_r, <- IH; reflexivity.
  - apply first_present_none in E; rewrite E, andb_false_r; exact IH.
Qed.

Lemma In_resolve t a cands cols :
  In (t, a) (resolve cands cols) ->
  exists opts, In (t, opts) cands /\ first_present opts cols = Some a.
Proof.
  induction cands as [|[t' opts] rest IH]; simpl; [contradiction|].
  destruct (first_present opts cols) as [o|] eqn:E; simpl.
  - intros [H|H]; [injection H as -> ->; eauto|].
    destruct (IH H) as [opts' [? ?]]; eauto.
  - intros H; destruct (IH H) as [opts' [? ?]]; eauto.
Qed.

Lemma resolve_In t opts a cands cols :
  NoDup (map fst cands) -> In (t, opts) cands -> first_present opts cols = Some a ->
  In (t, a) (resolve cands cols).
Proof.
  induction cands as [|[t' opts'] rest IH]; simpl; [contradiction|].
  intros Hnd [H|H] Ha; inversion Hnd as [|? ? Hnotin Hnd']; subst.
  - injection H as -> ->; rewrite Ha; left; reflexivity.
  - destruct (first_present opts' cols); [right|]; apply IH; auto.
Qed.

Lemma NoDup_fst_unique {A B} (l : list (A * B)) p p' :
  NoDup (map fst l) -> In p l -> In p' l -> fst p = fst p' -> p = p'.
Proof.
  induction l as [|q l IH]; simpl; [contradiction|].
  intros Hnd Hp Hp' E; inversion Hnd as [|? ? Hnotin Hnd']; subst.
  destruct Hp as [<-|Hp], Hp' as [<-|Hp']; auto.
  - exfalso; apply Hnotin; rewrite E; apply in_map; exact Hp'.
  - exfalso; apply Hnotin; rewrite <- E; apply in_map; exact Hp.
Qed.

Lemma filter_map_fst {A B} (f : A -> bool) (l : list (A * B)) :
  filter f (map fst l) = map fst (filter (fun p => f (fst p)) l).
Proof. induction l as [|[a b] l IH]; simpl; [|destruct (f a); simpl]; congruence. Qed.

Lemma missing_fields_unresolved cands cols :
  NoDup (map fst cands) ->
  missing_fields cands (resolve cands cols) = unresolved_fields cands cols.
Proof.
  intros Hnd; unfold missing_fields, unresolved_fields; rewrite filter_map_fst.
  f_equal; apply filter_ext_in; intros p Hp; f_equal.
  rewrite mem_resolve; apply Bool.eq_iff_eq_true; rewrite existsb_exists; split.
  - intros [p' [Hp' E]]; apply andb_true_iff in E as [E1 E2].
    apply String.eqb_eq in E1.
    rewrite (NoDup_fst_unique _ _ _ Hnd Hp Hp' E1); exact E2.
  - intros E; exists p; rewrite String.eqb_refl; auto.
Qed.

Lemma In_unresolved t cands cols :
  In t (unresolved_fields cands cols) <->
  exists opts, In (t, opts) cands /\ forall a, In a opts -> ~ In a cols.
Proof.
  unfold unresolved_fields; rewrite in_map_iff; split.
  - intros [[t' opts] [<- Hin]]; apply filter_In in Hin as [Hin E]; simpl in E.
    apply negb_true_iff in E; exists opts; split; [exact Hin|].
    intros a Ha; apply mem_false.
    destruct (mem a cols) eqn:Ea; [|reflexivity].
    assert (existsb (fun a => mem a cols) opts = true) by (apply existsb_exists; eauto).
    congruence.
  - intros [opts [Hin Hnone]]; exists (t, opts); split; [reflexivity|].
    apply filter_In; split; [exact Hin|]; simpl; apply negb_true_iff.
    destruct (existsb (fun a => mem a cols) opts) eqn:E; [|reflexivity].
    apply existsb_exists in E as [a [Ha Ea]]; apply mem_In in Ea.
    exfalso; exact (Hnone a Ha Ea).
Qed.

Lemma catalog_targets_NoDup : NoDup (map fst catalog_candidates).
Proof. repeat constructor; simpl; intuition discriminate. Qed.

(** [normalize_cols] fails exactly with the unresolved fields *)
Lemma normalize_cols_eq raw :
  normalize_cols raw =
  match unresolved_fields catalog_candidates (map strip (fcols raw)) with
  | [] => inr (rename (map (fun p => (snd p, fst p))
                          (resolve catalog_candidates (map strip (fcols raw))))
                      (mkFrame (map strip (fcols raw)) (frows raw)))
  | m => inl (SchemaError m (map strip (fcols raw)))
  end.
Proof.
  unfold normalize_cols; cbn [fcols frows].
  rewrite missing_fields_unresolved by exact catalog_targets_NoDup; reflexivity.
Qed.


Lemma catalog_aliases_disjoint t1 o1 t2 o2 a :
  In (t1, o1) catalog_candidates -> In (t2, o2) catalog_candidates ->
  In a o1 -> In a o2 -> t1 = t2.
Proof.
  simpl; intros H1 H2 Ha1 Ha2.
  destruct H1 as [E1|[E1|[E1|[E1|[]]]]]; destruct H2 as [E2|[E2|[E2|[E2|[]]]]];
    injection E1 as <- <-; injection E2 as <- <-; try reflexivity;
    simpl in Ha1, Ha2; intuition (subst; discriminate).
Qed.

Lemma first_present_In opts cols a :
  first_present opts cols = Some a -> In a opts /\ In a cols.
Proof.
  unfold first_present; intros H; apply find_some in H as [H E].
  apply mem_In in E; auto.
Qed.

(** the rename of a successful [normalize_cols] turns the bound alias into
    its canonical name *)
Lemma rename_resolved t a cols :
  In (t, a) (resolve catalog_candidates cols) ->
  rename_col (map (fun p => (snd p, fst p)) (resolve catalog_candidates cols)) a = t.
Proof.
  intros Hta; unfold rename_col.
  destruct (find _ _) as [[a' t']|] eqn:F.
  - apply find_some in F as [Hin E]; simpl in E |- *; apply String.eqb_eq in E; subst a'.
    apply in_rev, in_map_iff in Hin as [[t'' a''] [E' Hin]]; simpl in E'.
    injection E' as -> ->.
    apply In_resolve in Hin as [o1 [H1 F1]]; apply In_resolve in Hta as [o2 [H2 F2]].
    apply first_present_In in F1 as [A1 _]; apply first_present_In in F2 as [A2 _].
    exact (catalog_aliases_disjoint _ _ _ _ _ H1 H2 A1 A2).
  - exfalso.
    assert (Hin : In (a, t) (rev (map (fun p => (snd p, fst p)) (resolve catalog_candidates cols)))).
    { apply in_rev; rewrite rev_involutive; apply in_map_iff; exists (t, a); auto. }
    pose proof (find_none _ _ F _ Hin) as E; simpl in E; rewrite String.eqb_refl in E; discriminate.
Qed.


Lemma first_present_skip opts h cols :
  (forall o, In o opts -> o <> h) -> first_present opts (h :: cols) = first_present opts cols.
Proof.
  unfold first_present; induction opts as [|o opts IH]; intros Hne; [reflexivity|].
  cbn [find].
  replace (mem o (h :: cols)) with (mem o cols).
  - destruct (mem o cols); [reflexivity|].
    apply IH; intros o' Ho'; apply Hne; right; exact Ho'.
  - unfold mem; simpl.
    destruct (String.eqb_spec o h) as [E|_]; [|reflexivity].
    exfalso; exact (Hne o (or_introl eq_refl) E).
Qed.

(** no two aliases of one field differ only in letter case *)
Lemma aliases_case_distinct t opts b1 b2 :
  In (t, opts) (catalog_candidates ++ [(PN, pn_candidates); (QTY, qty_candidates)])%list ->
  In b1 opts -> In b2 opts -> lower b1 = lower b2 -> b1 = b2.
Proof.
  simpl; intros Ht H1 H2 E.
  destruct Ht as [Ht|[Ht|[Ht|[Ht|[Ht|[Ht|[]]]]]]]; injection Ht as <- <-;
    simpl in H1, H2;
    repeat (destruct H1 as [<-|H1]); try contradiction;
    repeat (destruct H2 as [<-|H2]); try contradiction;
    try reflexivity; vm_compute in E; discriminate.
Qed.

Lemma load_xlsx_no_weight parse ns raw :
  (forall a, In a ["Weight (g)"; "Gram Weight"; "Gram Weight (g)"; "Grams"; "Weight Grams";
                   "Weight_g"; "Weight"] -> ~ In a (map strip (fcols raw))) ->
  exists missing,
    load_xlsx parse ns raw = inl (SchemaError missing (map strip (fcols raw))) /\ In WEIGHT missing.
Proof.
  intros H; unfold load_xlsx; rewrite normalize_cols_eq.
  assert (Hw : In WEIGHT (unresolved_fields catalog_candidates (map strip (fcols raw)))).
  { apply In_unresolved; eexists; split; [|exact H]; simpl; auto. }
  destruct (unresolved_fields catalog_candidates (map strip (fcols raw))) as [|m ms];
    [contradiction|].
  exists (m :: ms); split; [reflexivity | exact Hw].
Qed.

Lemma load_purchase_no_qty parse ns raw :
  (forall a, In a qty_candidates -> ~ In a (map strip (fcols raw))) ->
  load_purchase_csv parse ns raw = inl (PurchaseSchemaError (map strip (fcols raw))).
Proof.
  intros H; unfold load_purchase_csv.
  assert (first_present qty_candidates (map strip (fcols raw)) = None) as ->.
  { apply first_present_none.
    destruct (existsb _ _) eqn:E; [|reflexivity].
    apply existsb_exists in E as [a [Ha Ea]]; apply mem_In in Ea.
    exfalso; exact (H a Ha Ea). }
  destruct (first_present pn_candidates _); reflexivity.
Qed.


(** ** Lemmas on grouping *)

Lemma cell_eqb_refl c : cell_eqb c c = true.
Proof. destruct c; simpl; [apply String.eqb_refl | apply Qeq_bool_refl | reflexivity]. Qed.

Lemma cell_eqb_trans a b c : cell_eqb a b = true -> cell_eqb b c = true -> cell_eqb a c = true.
Proof.
  destruct a, b, c; simpl; try discriminate; auto.
  - intros E1 E2; apply String.eqb_eq in E1; apply String.eqb_eq in E2; subst;
      apply String.eqb_refl.
  - intros E1 E2; apply Qeq_bool_iff in E1; apply Qeq_bool_iff in E2; apply Qeq_bool_iff.
    rewrite E1; exact E2.
Qed.

Lemma cell_eqb_str s c : cell_eqb (CStr s) c = true -> c = CStr s.
Proof.
  destruct c; simpl; try discriminate; intros E; apply String.eqb_eq in E; congruence.
Qed.

Lemma dedup_acc_spec l acc :
  NoDup acc ->
  NoDup (fold_left (fun acc x => if existsb (cell_eqb x) acc then acc else (acc ++ [x])%list) l acc) /\
  (forall y, In y (fold_left (fun acc x => if existsb (cell_eqb x) acc then acc else (acc ++ [x])%list) l acc)
             -> In y acc \/ In y l) /\
  (forall x, In x acc \/ In x l ->
     exists y, cell_eqb x y = true /\
       In y (fold_left (fun acc x => if existsb (cell_eqb x) acc then acc else (acc ++ [x])%list) l acc)).
Proof.
  revert acc; induction l as [|x l IH]; intros acc Hnd; simpl.
  - split; [exact Hnd|]; split; [auto|].
    intros x [Hx|[]]; exists x; split; [apply cell_eqb_refl | exact Hx].
  - destruct (existsb (cell_eqb x) acc) eqn:E.
    + destruct (IH acc Hnd) as [H1 [H2 H3]]; split; [exact H1|]; split.
      * intros y Hy; destruct (H2 y Hy); auto.
      * intros z [Hz|[Ez|Hz]]; [apply H3; auto| subst z | apply H3; auto].
        apply existsb_exists in E as [w [Hw Ew]].
        destruct (H3 w (or_introl Hw)) as [y [Ey Hy]].
        exists y; split; [exact (cell_eqb_trans _ _ _ Ew Ey) | exact Hy].
    + assert (Hnd' : NoDup (acc ++ [x])%list).
      { apply NoDup_app; [exact Hnd | repeat constructor; auto|].
        intros y Hy [->|[]].
        assert (existsb (cell_eqb y) acc = true)
          by (apply existsb_exists; exists y; split; [exact Hy | apply cell_eqb_refl]).
        congruence. }
      destruct (IH _ Hnd') as [H1 [H2 H3]]; split; [exact H1|]; split.
      * intros y Hy; destruct (H2 y Hy) as [Hy'|Hy'];
          [apply in_app_or in Hy' as [Hy'|[<-|[]]]|]; auto.
      * intros z Hz; apply H3.
        destruct Hz as [Hz|[<-|Hz]]; [left; apply in_or_app; auto|
                                      left; apply in_or_app; right; left; reflexivity|
                                      right; exact Hz].
Qed.

Lemma dedup_NoDup l : NoDup (dedup l).
Proof. exact (proj1 (dedup_acc_spec l [] (NoDup_nil _))). Qed.

Lemma dedup_incl l y : In y (dedup l) -> In y l.
Proof.
  intros H; destruct (proj1 (proj2 (dedup_acc_spec l [] (NoDup_nil _))) y H) as [[]|]; auto.
Qed.

Lemma dedup_complete l x : In x l -> exists y, cell_eqb x y = true /\ In y (dedup l).
Proof. intros H; exact (proj2 (proj2 (dedup_acc_spec l [] (NoDup_nil _))) x (or_intror H)). Qed.

Lemma insert_sorted_perm x l : Permutation (x :: l) (insert_sorted x l).
Proof.
  induction l as [|y l IH]; simpl; [reflexivity|].
  destruct (cell_ltb y x); [|reflexivity].
  eapply perm_trans; [apply perm_swap|]; constructor; exact IH.
Qed.

Lemma sort_keys_perm l : Permutation l (sort_keys l).
Proof.
  induction l as [|x l IH]; simpl; [reflexivity|].
  eapply perm_trans; [apply perm_skip; exact IH | apply insert_sorted_perm].
Qed.

Lemma combine_map {A B C} (f : A -> B) (g : A -> C) l :
  combine (map f l) (map g l) = map (fun x => (f x, g x)) l.
Proof. induction l; simpl; congruence. Qed.

Lemma group_sum_total parse ns ipn iq rows k :
  group_sum k (map (fun r => (ledger_key ns ipn r, CNum (ledger_qty parse iq r))) rows)
  = CNum (ledger_total parse ns ipn iq rows k).
Proof.
  unfold group_sum, ledger_total; generalize 0%Q as a.
  induction rows as [|r rows IH]; intros a; cbn [fold_left map fst snd]; [reflexivity|].
  destruct (cell_eqb (ledger_key ns ipn r) k); [exact (IH (a + ledger_qty parse iq r)%Q) | apply IH].
Qed.

Lemma filter_all {A} (f : A -> bool) l : (forall x, In x l -> f x = true) -> filter f l = l.
Proof.
  induction l as [|x l IH]; intros H; simpl; [reflexivity|].
  rewrite (H x (or_introl eq_refl)), IH by (intros; apply H; simpl; auto); reflexivity.
Qed.


Lemma col_index_map_iff (f : string -> string) x y cols :
  (forall c, In c cols -> (f c = x <-> c = y)) -> col_index x (map f cols) = col_index y cols.
Proof.
  induction cols as [|c cols IH]; intros H; simpl; [reflexivity|].
  rewrite IH by (intros; apply H; simpl; auto).
  replace (String.eqb (f c) x) with (String.eqb c y); [reflexivity|].
  apply Bool.eq_iff_eq_true; rewrite !String.eqb_eq; symmetry; apply H; simpl; auto.
Qed.

Lemma first_present_head o opts cols a :
  first_present (o :: opts) cols = Some a -> In o cols -> a = o.
Proof.
  unfold first_present; simpl; intros H Ho.
  apply mem_In in Ho; rewrite Ho in H; congruence.
Qed.

Lemma pn_qty_aliases_distinct pn qty :
  In pn pn_candidates -> In qty qty_candidates -> pn <> qty.
Proof.
  simpl; intros H1 H2 ->; intuition (subst; discriminate).
Qed.

Lemma rename_ledger_iff pn qty cols c :
  first_present pn_candidates cols = Some pn -> first_present qty_candidates cols = Some qty ->
  In c cols ->
  (rename_col [(pn, PN); (qty, QTY)] c = PN <-> c = pn) /\
  (rename_col [(pn, PN); (qty, QTY)] c = QTY <-> c = qty).
Proof.
  intros Hpn Hq Hc.
  pose proof (proj1 (first_present_In _ _ _ Hpn)) as Ipn.
  pose proof (proj1 (first_present_In _ _ _ Hq)) as Iq.
  pose proof (pn_qty_aliases_distinct _ _ Ipn Iq) as Hne.
  unfold rename_col; simpl.
  destruct (String.eqb_spec qty c) as [<-|Nq]; [|destruct (String.eqb_spec pn c) as [<-|Np]].
  - simpl; split; split; intros H; try discriminate; try congruence.
  - simpl; split; split; intros H; try discriminate; try congruence; reflexivity.
  - simpl; split; split; intros H; subst c; try congruence.
    + exfalso; apply Np; exact (first_present_head _ _ _ _ Hpn Hc).
    + exfalso; apply Nq; exact (first_present_head _ _ _ _ Hq Hc).
Qed.

Lemma ledger_key_str ns ipn r : exists s, ledger_key ns ipn r = CStr s.
Proof. unfold ledger_key, str_col, astype_str, str_strip; eexists; reflexivity. Qed.

(** [load_purchase_csv] on a rectangular ledger whose part-number and
    quantity headers are bound *)
Lemma load_purchase_csv_eq parse ns raw pn qty ipn iq :
  Forall (fun r => List.length r = List.length (fcols raw)) (frows raw) ->
  first_present pn_candidates (map strip (fcols raw)) = Some pn ->
  first_present qty_candidates (map strip (fcols raw)) = Some qty ->
  col_index pn (map strip (fcols raw)) = Some ipn ->
  col_index qty (map strip (fcols raw)) = Some iq ->
  load_purchase_csv parse ns raw
  = inr (mkFrame [PN; QTY]
           (map (fun k => [k; CNum (ledger_total parse ns ipn iq (frows raw) k)])
                (sort_keys (dedup (map (ledger_key ns ipn) (frows raw)))))).
Proof.
  intros Hwf Hpn Hq Ipn Iq; unfold load_purchase_csv; rewrite Hpn, Hq.
  set (cols := map strip (fcols raw)) in *.
  assert (C1 : col_index PN (map (rename_col [(pn, PN); (qty, QTY)]) cols) = Some ipn).
  { rewrite (col_index_map_iff _ _ pn); [exact Ipn|].
    intros c Hc; exact (proj1 (rename_ledger_iff _ _ _ _ Hpn Hq Hc)). }
  assert (C2 : col_index QTY (map (rename_col [(pn, PN); (qty, QTY)]) cols) = Some iq).
  { rewrite (col_index_map_iff _ _ qty); [exact Iq|].
    intros c Hc; exact (proj2 (rename_ledger_iff _ _ _ _ Hpn Hq Hc)). }
  assert (Hne : ipn <> iq).
  { intros ->; apply (pn_qty_aliases_distinct pn qty);
      [exact (proj1 (first_present_In _ _ _ Hpn)) | exact (proj1 (first_present_In _ _ _ Hq)) |].
    exact (col_index_inj _ _ _ _ Ipn Iq). }
  assert (Lpn : ipn < List.length (fcols raw))
    by (rewrite <- (length_map strip); exact (proj1 (col_index_nth _ _ _ Ipn))).
  assert (Lq : iq < List.length (fcols raw))
    by (rewrite <- (length_map strip); exact (proj1 (col_index_nth _ _ _ Iq))).
  rewrite (map_col_at _ _ _ ipn) by exact C1; cbn [bind].
  rewrite (map_col_at _ _ _ iq) by exact C2; cbn [bind].
  unfold groupby_sum.
  rewrite (get_col_at _ _ ipn) by exact C1; cbn [bind].
  rewrite (get_col_at _ _ iq) by exact C2; cbn [bind ret frows rename].
  rewrite !map_map.
  assert (Ks : map (fun r => nth_cell ipn
                      (replace_nth iq (fillna (CNum 0) (to_numeric parse
                         (nth_cell iq (replace_nth ipn (str_col ns (nth_cell ipn r)) r))))
                         (replace_nth ipn (str_col ns (nth_cell ipn r)) r))) (frows raw)
               = map (ledger_key ns ipn) (frows raw)).
  { apply map_ext_in; intros r Hr; rewrite Forall_forall in Hwf; specialize (Hwf r Hr).
    rewrite nth_cell_replace_other by congruence.
    rewrite nth_cell_replace_same; replace (ipn <? List.length r) with true; [reflexivity|].
    symmetry; apply Nat.ltb_lt; lia. }
  assert (Vs : map (fun r => nth_cell iq
                      (replace_nth iq (fillna (CNum 0) (to_numeric parse
                         (nth_cell iq (replace_nth ipn (str_col ns (nth_cell ipn r)) r))))
                         (replace_nth ipn (str_col ns (nth_cell ipn r)) r))) (frows raw)
               = map (fun r => CNum (ledger_qty parse iq r)) (frows raw)).
  { apply map_ext_in; intros r Hr; rewrite Forall_forall in Hwf; specialize (Hwf r Hr).
    rewrite nth_cell_replace_same, replace_nth_length.
    replace (iq <? List.length r) with true by (symmetry; apply Nat.ltb_lt; lia).
    rewrite nth_cell_replace_other by congruence.
    rewrite fill_coerced; reflexivity. }
  rewrite Ks, Vs, combine_map.
  rewrite filter_all.
  2:{ intros x Hx; apply in_map_iff in Hx as [r [<- _]].
      destruct (ledger_key_str ns ipn r) as [s' ->]; reflexivity. }
  unfold ret; do 2 f_equal; apply map_ext; intros k; rewrite group_sum_total; reflexivity.
Qed.


(** ** The purchase merge *)

Lemma col_index_notin c cols :
  ~ In c cols -> col_index c (cols ++ [c])%list = Some (List.length cols).
Proof.
  induction cols as [|x xs IH]; intros H; simpl.
  - rewrite String.eqb_refl; reflexivity.
  - destruct (String.eqb_spec x c) as [->|_]; [exfalso; apply H; left; reflexivity|].
    rewrite IH by (intros Hc; apply H; right; exact Hc); reflexivity.
Qed.

Lemma filter_map_comm {A B} (f : B -> bool) (g : A -> B) l :
  filter f (map g l) = map g (filter (fun x => f (g x)) l).
Proof. induction l as [|x l IH]; simpl; [reflexivity|]; destruct (f (g x)); simpl; congruence. Qed.

Lemma filter_none {A} (f : A -> bool) l : (forall x, In x l -> f x = false) -> filter f l = [].
Proof.
  induction l as [|x l IH]; intros H; simpl; [reflexivity|].
  rewrite (H x (or_introl eq_refl)); apply IH; intros; apply H; simpl; auto.
Qed.

Lemma filter_find_nodup key (l : list (string * Q)) :
  NoDup (map fst l) ->
  filter (fun kq => cell_eqb key (CStr (fst kq))) l
  = match find (fun kq => cell_eqb key (CStr (fst kq))) l with Some kq => [kq] | None => [] end.
Proof.
  induction l as [|a l IH]; intros Hnd; simpl; [reflexivity|].
  inversion Hnd as [|? ? Hna Hnd']; subst.
  destruct (cell_eqb key (CStr (fst a))) eqn:Ea; [|exact (IH Hnd')].
  f_equal; apply filter_none; intros b Hb.
  destruct (cell_eqb key (CStr (fst b))) eqn:Eb; [|reflexivity].
  exfalso; apply Hna.
  destruct key as [s| |]; simpl in Ea, Eb; try discriminate.
  apply String.eqb_eq in Ea, Eb; rewrite <- Ea, Eb; apply in_map; exact Hb.
Qed.

Lemma flat_map_single {A B} (F : A -> list B) (G : A -> B) l :
  (forall x, In x l -> F x = [G x]) -> flat_map F l = map G l.
Proof.
  induction l as [|x l IH]; intros H; simpl; [reflexivity|].
  rewrite (H x (or_introl eq_refl)), IH by (intros; apply H; simpl; auto); reflexivity.
Qed.

(** the left merge of a catalog with an aggregated purchase set appends the
    purchase quantity, or NaN, as ["Quantity_csv"] *)
Lemma merge_purchases df l ip :
  col_index PN (fcols df) = Some ip -> In QTY (fcols df) -> NoDup (map fst l) ->
  merge_left df (purchase_frame l) PN "_csv"
  = inr (mkFrame (fcols df ++ ["Quantity_csv"])%list
           (map (fun r => (r ++ [csv_qty l (nth_cell ip r)])%list) (frows df))).
Proof.
  intros Hp Hq Hl; unfold merge_left; rewrite Hp; cbn.
  rewrite (proj2 (mem_In _ _) Hq); unfold ret; do 2 f_equal.
  apply flat_map_single; intros r _.
  rewrite filter_map_comm; cbn [nth_cell nth].
  rewrite (filter_find_nodup (nth_cell ip r) l Hl); unfold csv_qty.
  destruct (find _ l); reflexivity.
Qed.



Lemma replace_nth_app_l {A} i (v : A) r r' :
  i < List.length r -> replace_nth i v (r ++ r')%list = (replace_nth i v r ++ r')%list.
Proof.
  revert i; induction r as [|x r IH]; intros [|i] H; simpl in *; try lia; [reflexivity|].
  rewrite IH by lia; reflexivity.
Qed.

Lemma nth_cell_app_last r x : nth_cell (List.length r) (r ++ [x])%list = x.
Proof. unfold nth_cell; rewrite app_nth2, Nat.sub_diag by lia; reflexivity. Qed.

Lemma select_drop_csv {A} cols (r : list A) x :
  ~ In "Quantity_csv" cols -> List.length r = List.length cols ->
  select (map (fun c => negb (mem c ["Quantity_csv"])) (cols ++ ["Quantity_csv"])%list)
         (r ++ [x])%list = r.
Proof.
  revert r; induction cols as [|c cols IH]; intros [|y r] Hn Hl; simpl in *; try discriminate.
  - reflexivity.
  - destruct (String.eqb_spec c "Quantity_csv") as [->|_]; [exfalso; apply Hn; left; reflexivity|].
    simpl; rewrite IH by auto; reflexivity.
Qed.

Lemma merged_qty_fillna l key old : merged_qty l key old = fillna old (csv_qty l key).
Proof. unfold merged_qty, csv_qty; destruct (find _ l); reflexivity. Qed.

(** applying an aggregated purchase set to a catalog whose headers do not
    end in ["_csv"] sets each row's quantity to [merged_qty] and changes
    nothing else *)
Lemma apply_purchases_eq df l ip iq :
  Forall (fun r => List.length r = List.length (fcols df)) (frows df) ->
  Forall (fun c => ends_with "_csv" c = false) (fcols df) ->
  col_index PN (fcols df) = Some ip -> col_index QTY (fcols df) = Some iq ->
  NoDup (map fst l) ->
  apply_purchases df (purchase_frame l)
  = inr (mkFrame (fcols df)
           (map (fun r => replace_nth iq (merged_qty l (nth_cell ip r) (nth_cell iq r)) r)
                (frows df))).
Proof.
  intros Hwf Hcsv Hp Hq Hl.
  assert (HqIn : In QTY (fcols df)).
  { destruct (col_index_nth _ _ _ Hq) as [L E]; rewrite <- E; apply nth_In; exact L. }
  assert (Hn : ~ In "Quantity_csv" (fcols df))
    by (intros H; rewrite Forall_forall in Hcsv; specialize (Hcsv _ H); discriminate).
  assert (Lq : iq < List.length (fcols df)) by exact (proj1 (col_index_nth _ _ _ Hq)).
  unfold apply_purchases; rewrite (merge_purchases df l ip Hp HqIn Hl); cbn [bind].
  rewrite (get_col_at "Quantity_csv" _ (List.length (fcols df)))
    by (cbn [fcols]; apply col_index_notin; exact Hn); cbn [bind].
  rewrite (get_col_at QTY _ iq) by (cbn [fcols]; apply col_index_app_some; exact Hq); cbn [bind].
  rewrite zip_with_map2.
  rewrite (set_col_at QTY _ _ iq) by (cbn [fcols]; apply col_index_app_some; exact Hq).
  unfold drop_cols, ret; cbn [fcols frows].
  rewrite filter_app, filter_none
    by (intros c Hc; rewrite Forall_forall in Hcsv; exact (Hcsv c Hc)).
  cbn [filter app]; replace (ends_with "_csv" "Quantity_csv") with true by reflexivity.
  f_equal; f_equal.
  - apply (select_drop_csv (fcols df) (fcols df)); [exact Hn | reflexivity].
  - rewrite !map_map; apply map_ext_in; intros r Hr.
    rewrite Forall_forall in Hwf; specialize (Hwf r Hr).
    rewrite replace_nth_app_l by lia.
    rewrite (select_drop_csv (fcols df)) by (try rewrite replace_nth_length; auto).
    rewrite merged_qty_fillna, nth_cell_app_l by lia.
    rewrite <- Hwf, nth_cell_app_last; reflexivity.
Qed.


Lemma replace_nth_twice {A} i (v w : A) r :
  replace_nth i v (replace_nth i w r) = replace_nth i v r.
Proof. revert i; induction r as [|x r IH]; intros [|i]; simpl; congruence. Qed.

Lemma merged_qty_idem l key old : merged_qty l key (merged_qty l key old) = merged_qty l key old.
Proof. unfold merged_qty; destruct (find _ l); reflexivity. Qed.

Lemma merged_qty_hit l k q old :
  NoDup (map fst l) -> In (k, q) l -> merged_qty l (CStr k) old = CNum q.
Proof.
  intros Hl Hin; unfold merged_qty.
  destruct (find (fun kq => cell_eqb (CStr k) (CStr (fst kq))) l) as [kq|] eqn:F.
  - apply find_some in F as [Hkq E]; simpl in E; apply String.eqb_eq in E.
    rewrite (NoDup_fst_unique l kq (k, q) Hl Hkq Hin (eq_sym E)); reflexivity.
  - apply (find_none _ _ F) in Hin; simpl in Hin; rewrite String.eqb_refl in Hin; discriminate.
Qed.

Lemma merged_qty_miss l key old :
  (forall k q, In (k, q) l -> key <> CStr k) -> merged_qty l key old = old.
Proof.
  intros H; unfold merged_qty.
  destruct (find (fun kq => cell_eqb key (CStr (fst kq))) l) as [[k q]|] eqn:F; [|reflexivity].
  apply find_some in F as [Hkq E]; simpl in E; exfalso; apply (H k q Hkq).
  destruct key as [s| |]; simpl in E; try discriminate; apply String.eqb_eq in E; congruence.
Qed.

Lemma field_replace_qty d iq v r :
  col_index QTY (fcols d) = Some iq -> List.length r = List.length (fcols d) ->
  field d QTY (replace_nth iq v r) = v.
Proof.
  intros Hq Hl; unfold field; rewrite Hq, nth_cell_replace_same.
  replace (iq <? List.length r) with true; [reflexivity|].
  symmetry; apply Nat.ltb_lt; rewrite Hl; exact (proj1 (col_index_nth _ _ _ Hq)).
Qed.

Lemma field_replace_other d iq v r c :
  col_index QTY (fcols d) = Some iq -> c <> QTY ->
  field d c (replace_nth iq v r) = field d c r.
Proof.
  intros Hq Hc; unfold field; destruct (col_index c (fcols d)) as [j|] eqn:Hj; [|reflexivity].
  apply nth_cell_replace_other; intros ->; apply Hc; exact (col_index_inj _ _ _ _ Hj Hq).
Qed.

Lemma field_at d c i r : col_index c (fcols d) = Some i -> field d c r = nth_cell i r.
Proof. intros H; unfold field; rewrite H; reflexivity. Qed.

Lemma PN_QTY_index_distinct cols ip iq :
  col_index PN cols = Some ip -> col_index QTY cols = Some iq -> ip <> iq.
Proof. intros Hp Hq ->; pose proof (col_index_inj _ _ _ _ Hp Hq); discriminate. Qed.

Lemma merge_rows_wf df l ip iq :
  Forall (fun r => List.length r = List.length (fcols df)) (frows df) ->
  Forall (fun r => List.length r = List.length (fcols df))
    (map (fun r => replace_nth iq (merged_qty l (nth_cell ip r) (nth_cell iq r)) r) (frows df)).
Proof.
  intros Hwf; apply Forall_map; eapply Forall_impl; [|exact Hwf].
  intros r Hr; rewrite replace_nth_length; exact Hr.
Qed.


Lemma cell_eqb_str_r c s : cell_eqb c (CStr s) = true -> c = CStr s.
Proof. destruct c; simpl; try discriminate; intros E; apply String.eqb_eq in E; congruence. Qed.

Lemma map_const_repeat {A B} (x : B) (l : list A) : map (fun _ => x) l = repeat x (List.length l).
Proof. induction l; simpl; congruence. Qed.

Lemma sum_qty_repeat q n : sum_qty (repeat (CNum q) n) == inject_Z (Z.of_nat n) * q.
Proof.
  unfold sum_qty; induction n as [|n IH]; cbn [repeat fold_right]; [reflexivity|].
  rewrite IH, Nat2Z.inj_succ; unfold Z.succ; rewrite inject_Z_plus; ring.
Qed.


(** ** Sorting and set difference *)

Lemma string_ltb_asym x y : String.ltb x y = true -> String.ltb y x = false.
Proof.
  unfold String.ltb; rewrite (String.compare_antisym y x).
  destruct (String.compare x y); simpl; congruence.
Qed.

Lemma cell_ltb_asym a b : cell_ltb a b = true -> cell_ltb b a = false.
Proof. destruct a, b; simpl; try discriminate; apply string_ltb_asym. Qed.

Lemma insert_sorted_hd y x l :
  cell_le y x -> HdRel cell_le y l -> HdRel cell_le y (insert_sorted x l).
Proof.
  intros Hyx Hl; destruct l as [|z l]; simpl; [constructor; exact Hyx|].
  inversion Hl; subst.
  destruct (cell_ltb z x); constructor; assumption.
Qed.

Lemma insert_sorted_sorted x l : Sorted cell_le l -> Sorted cell_le (insert_sorted x l).
Proof.
  induction l as [|y l IH]; intros Hs; simpl; [repeat constructor|].
  inversion Hs as [|? ? Hs' Hhd]; subst.
  destruct (cell_ltb y x) eqn:E.
  - constructor; [exact (IH Hs')|].
    apply insert_sorted_hd; [exact (cell_ltb_asym _ _ E) | exact Hhd].
  - constructor; [exact Hs | constructor; exact E].
Qed.

Lemma sort_keys_sorted l : Sorted cell_le (sort_keys l).
Proof.
  induction l as [|x l IH]; simpl; [constructor|]; apply insert_sorted_sorted; exact IH.
Qed.

(** on distinct strings the order is strict *)
Lemma sorted_strict l :
  Sorted cell_le l -> NoDup l -> (forall c, In c l -> exists s, c = CStr s) ->
  Sorted (fun a b => cell_ltb a b = true) l.
Proof.
  induction 1 as [|a l Hs IH Hhd]; intros Hnd Hstr; constructor.
  - apply IH; [inversion Hnd; assumption | intros; apply Hstr; right; assumption].
  - destruct Hhd as [|b l' Hab]; constructor.
    inversion Hnd as [|? ? Hna _]; subst.
    destruct (Hstr a (or_introl eq_refl)) as [x ->].
    destruct (Hstr b (or_intror (or_introl eq_refl))) as [y ->].
    unfold cell_le in Hab; simpl in *; unfold String.ltb in *.
    rewrite (String.compare_antisym y x) in Hab.
    destruct (String.compare x y) eqn:C; simpl in Hab; try discriminate; [|reflexivity].
    apply String.compare_eq_iff in C; subst; exfalso; apply Hna; left; reflexivity.
Qed.

Lemma col_index_In c cols : In c cols -> exists i, col_index c cols = Some i.
Proof.
  induction cols as [|x xs IH]; simpl; [contradiction|]; intros H.
  destruct (String.eqb_spec x c); [exists 0; reflexivity|].
  destruct H as [->|H]; [congruence|]; destruct (IH H) as [i ->]; exists (S i); reflexivity.
Qed.

Lemma col_index_None c cols : col_index c cols = None -> ~ In c cols.
Proof. intros H Hin; destruct (col_index_In _ _ Hin) as [i Hi]; congruence. Qed.

Lemma NoDup_filter' {A} (f : A -> bool) l : NoDup l -> NoDup (filter f l).
Proof.
  induction 1; simpl; [constructor|]; destruct (f x); [|assumption].
  constructor; [rewrite filter_In; tauto | assumption].
Qed.

Lemma cell_eqb_sym a b : cell_eqb a b = cell_eqb b a.
Proof.
  destruct a, b; simpl; try reflexivity; [apply String.eqb_sym|].
  apply Bool.eq_iff_eq_true; rewrite !Qeq_bool_iff; split; intros; symmetry; assumption.
Qed.


Lemma existsb_false_iff {A} (f : A -> bool) l :
  existsb f l = false <-> forall y, In y l -> f y = false.
Proof.
  split.
  - intros H y Hy; destruct (f y) eqn:E; [|reflexivity].
    assert (existsb f l = true) by (apply existsb_exists; eauto); congruence.
  - intros H; destruct (existsb f l) eqn:E; [|reflexivity].
    apply existsb_exists in E as [y [Hy E]]; rewrite (H y Hy) in E; discriminate.
Qed.

Lemma map_field_at df c i :
  col_index c (fcols df) = Some i -> map (field df c) (frows df) = map (nth_cell i) (frows df).
Proof. intros H; apply map_ext; intros r; apply field_at; exact H. Qed.

(** the set difference before sorting *)
Lemma unmatched_in d p x :
  In x (sort_keys (filter (fun c => negb (existsb (cell_eqb c) d)) (dedup p))) <->
  In x (dedup p) /\ forall y, In y d -> cell_eqb x y = false.
Proof.
  split; intros H.
  - apply (Permutation_in _ (Permutation_sym (sort_keys_perm _))), filter_In in H as [H1 H2].
    split; [exact H1|]; apply existsb_false_iff; destruct (existsb _ d); [discriminate|reflexivity].
  - apply (Permutation_in _ (sort_keys_perm _)), filter_In; split; [apply H|].
    rewrite (proj2 (existsb_false_iff _ _) (proj2 H)); reflexivity.
Qed.


Lemma first_present_None_iff opts cols :
  first_present opts cols = None <-> forall a, In a opts -> ~ In a cols.
Proof.
  rewrite first_present_none, existsb_false_iff; split; intros H a Ha.
  - apply mem_false, H, Ha.
  - apply mem_false, H, Ha.
Qed.

(** with both headers bound the ledger loader succeeds *)
Lemma load_purchase_csv_ok parse ns raw pn qty :
  first_present pn_candidates (map strip (fcols raw)) = Some pn ->
  first_present qty_candidates (map strip (fcols raw)) = Some qty ->
  exists out, load_purchase_csv parse ns raw = inr out.
Proof.
  intros Hpn Hq; unfold load_purchase_csv; rewrite Hpn, Hq.
  set (cols := map strip (fcols raw)) in *.
  destruct (col_index_In pn cols (proj2 (first_present_In _ _ _ Hpn))) as [i1 I1].
  destruct (col_index_In qty cols (proj2 (first_present_In _ _ _ Hq))) as [i2 I2].
  assert (C1 : col_index PN (map (rename_col [(pn, PN); (qty, QTY)]) cols) = Some i1).
  { rewrite (col_index_map_iff _ _ pn); [exact I1|].
    intros c Hc; exact (proj1 (rename_ledger_iff _ _ _ _ Hpn Hq Hc)). }
  assert (C2 : col_index QTY (map (rename_col [(pn, PN); (qty, QTY)]) cols) = Some i2).
  { rewrite (col_index_map_iff _ _ qty); [exact I2|].
    intros c Hc; exact (proj2 (rename_ledger_iff _ _ _ _ Hpn Hq Hc)). }
  rewrite (map_col_at _ _ _ i1) by exact C1; cbn [bind].
  rewrite (map_col_at _ _ _ i2) by exact C2; cbn [bind].
  unfold groupby_sum.
  rewrite (get_col_at _ _ i1) by exact C1; cbn [bind].
  rewrite (get_col_at _ _ i2) by exact C2; cbn [bind].
  eexists; reflexivity.
Qed.


(** ** The search box *)

Lemma lower_empty s : lower s = "" <-> s = "".
Proof. destruct s; simpl; split; intros; congruence. Qed.

(** ** The results panel *)

Lemma sum_qty_map (g : list cell -> cell) (f : list cell -> Q) rows :
  (forall r, g r = CNum (f r)) -> sum_qty (map g rows) = qsum f rows.
Proof.
  intros H; unfold sum_qty, qsum; induction rows as [|r rows IH]; simpl; [reflexivity|].
  rewrite H, IH; reflexivity.
Qed.

Lemma qsum_le f g rows : (forall r, In r rows -> (f r <= g r)%Q) -> (qsum f rows <= qsum g rows)%Q.
Proof.
  unfold qsum; induction rows as [|r rows IH]; intros H; simpl; [apply Qle_refl|].
  apply Qplus_le_compat; [apply H; left; reflexivity | apply IH; intros; apply H; right; assumption].
Qed.

Lemma calc_pcr_range parse r : (0 <= calc_pcr parse r <= 100)%Q.
Proof.
  unfold calc_pcr; destruct (clip_num 0 100 (coerced parse (nth_cell 3 r))) as [p [Hp Hr]];
    [discriminate|]; rewrite Hp; exact Hr.
Qed.

Lemma coerce_row_pcr parse r : clip 0 100 (CNum (coerced parse (nth_cell 3 r))) = CNum (calc_pcr parse r).
Proof.
  unfold calc_pcr; destruct (clip_num 0 100 (coerced parse (nth_cell 3 r))) as [p [Hp _]];
    [discriminate|]; rewrite Hp; reflexivity.
Qed.

(** the results panel on a frame of the editor's shape *)
Lemma results_eq parse b cur rows :
  Forall (fun r => List.length r = 5) rows ->
  let w r := coerced parse (nth_cell 2 r) in
  let n r := coerced parse (nth_cell 4 r) in
  let tg := qsum (fun r => (w r * n r)%Q) rows in
  let pg := qsum (fun r => (w r * n r * (calc_pcr parse r / 100))%Q) rows in
  results parse b cur (mkFrame calc_columns rows)
  = inr (mkMetrics (tg / GRAMS_PER_LB) (tg / GRAMS_PER_LB * KG_PER_LB)
           (pg / GRAMS_PER_LB) (pg / GRAMS_PER_LB * KG_PER_LB)
           (pg / GRAMS_PER_LB * KG_PER_LB * b / 1000)
           (tg / GRAMS_PER_LB * KG_PER_LB * (cur / 100) * b / 1000)
           (pg / GRAMS_PER_LB * KG_PER_LB * b / 1000
            - tg / GRAMS_PER_LB * KG_PER_LB * (cur / 100) * b / 1000)).
Proof.
  intros Hlen w n tg pg; unfold results; rewrite (coerce_edited_rows _ _ Hlen); cbn [bind].
  rewrite (get_col_at _ _ 2) by reflexivity; cbn [bind].
  rewrite (get_col_at _ _ 4) by reflexivity; cbn [bind].
  rewrite (get_col_at _ _ 3) by reflexivity; cbn [bind frows].
  rewrite !map_map, !zip_with_map2.
  rewrite (sum_qty_map _ (fun r => (w r * n r)%Q)) by reflexivity.
  rewrite (sum_qty_map _ (fun r => (w r * n r * (calc_pcr parse r / 100))%Q))
    by (intros r; cbn [nth_cell nth coerce_row]; rewrite coerce_row_pcr; reflexivity).
  reflexivity.
Qed.

Lemma qsum_nonneg f rows : (forall r, In r rows -> (0 <= f r)%Q) -> (0 <= qsum f rows)%Q.
Proof.
  unfold qsum; induction rows as [|r rows IH]; intros H; simpl; [apply Qle_refl|].
  apply (Qle_trans _ (0 + 0)); [vm_compute; discriminate|]; apply Qplus_le_compat;
    [apply H; left; reflexivity | apply IH; intros; apply H; right; assumption].
Qed.

Lemma Qmult_le_compat_nonneg_l x y z : (x <= y -> 0 <= z -> z * x <= z * y)%Q.
Proof. intros; rewrite !(Qmult_comm z); apply Qmult_le_compat_r; assumption. Qed.

Lemma inv_grams_per_lb_nonneg : (0 <= / GRAMS_PER_LB)%Q.
Proof. vm_compute; discriminate. Qed.

Lemma kg_per_lb_nonneg : (0 <= KG_PER_LB)%Q.
Proof. vm_compute; discriminate. Qed.

Lemma results_inv parse b cur rows m :
  Forall (fun r => List.length r = 5) rows ->
  results parse b cur (mkFrame calc_columns rows) = inr m ->
  let w r := coerced parse (nth_cell 2 r) in
  let n r := coerced parse (nth_cell 4 r) in
  let tg := qsum (fun r => (w r * n r)%Q) rows in
  let pg := qsum (fun r => (w r * n r * (calc_pcr parse r / 100))%Q) rows in
  m = mkMetrics (tg / GRAMS_PER_LB) (tg / GRAMS_PER_LB * KG_PER_LB)
           (pg / GRAMS_PER_LB) (pg / GRAMS_PER_LB * KG_PER_LB)
           (pg / GRAMS_PER_LB * KG_PER_LB * b / 1000)
           (tg / GRAMS_PER_LB * KG_PER_LB * (cur / 100) * b / 1000)
           (pg / GRAMS_PER_LB * KG_PER_LB * b / 1000
            - tg / GRAMS_PER_LB * KG_PER_LB * (cur / 100) * b / 1000).
Proof.
  intros Hlen Hm; rewrite (results_eq parse b cur rows Hlen) in Hm.
  injection Hm as <-; reflexivity.
Qed.

Lemma rename_col_other mapping c :
  (forall t, ~ In (c, t) mapping) -> rename_col mapping c = c.
Proof.
  intros H; unfold rename_col.
  destruct (find _ _) as [[a t]|] eqn:F; [|reflexivity].
  apply find_some in F as [Hin E]; simpl in E; apply String.eqb_eq in E; subst a.
  apply in_rev in Hin; exfalso; exact (H t Hin).
Qed.

Lemma fclip_fin p : exists z, fclip 0 100 (ffillna0 p) = FFin z.
Proof.
  destruct p as [x|[]|]; cbn [ffillna0 fclip];
    repeat match goal with |- context [if ?c then _ else _] => destruct c end; eauto.
Qed.

Lemma load_xlsx_unresolved parse ns raw t opts :
  In (t, opts) catalog_candidates ->
  (forall a, In a opts -> ~ In a (map strip (fcols raw))) ->
  exists missing,
    load_xlsx parse ns raw = inl (SchemaError missing (map strip (fcols raw))) /\ In t missing.
Proof.
  intros Ht H; unfold load_xlsx; rewrite normalize_cols_eq.
  assert (Hw : In t (unresolved_fields catalog_candidates (map strip (fcols raw))))
    by (apply In_unresolved; exists opts; split; [exact Ht | exact H]).
  destruct (unresolved_fields catalog_candidates (map strip (fcols raw))) as [|m ms];
    [contradiction|].
  exists (m :: ms); split; [reflexivity | exact Hw].
Qed.

Lemma load_purchase_no_pn parse ns raw :
  (forall a, In a pn_candidates -> ~ In a (map strip (fcols raw))) ->
  load_purchase_csv parse ns raw = inl (PurchaseSchemaError (map strip (fcols raw))).
Proof.
  intros H; unfold load_purchase_csv.
  assert (first_present pn_candidates (map strip (fcols raw)) = None) as ->
    by (apply first_present_None_iff; exact H).
  reflexivity.
Qed.

(** ** Claims *)

(** C1, as the code has it: for every row of the calculator's input, the
    detail table holds the coerced weight [w], quantity [n] and clamped
    PCR% [p], and
    Total Weight (lb) = w * n / GRAMS_PER_LB (453.59237),
    PCR Weight (lb) = Total Weight (lb) * (p / 100),
    PCR Weight (kg) = PCR Weight (lb) * KG_PER_LB (0.45359237) and
    Avoided CO2 (metric tons) = PCR Weight (kg) * benefit / 1000;
    over float values, when the weight is 0 and the quantity finite, or the
    quantity is 0 and the weight finite, all four are exactly 0, whatever
    the PCR%. *)
Theorem detail_formula_chain parse (pet_pcr_benefit : Q) rows :
  Forall (fun r => List.length r = 5%nat) rows ->
  (exists d,
    detail_table parse pet_pcr_benefit (mkFrame calc_columns rows) = inr d /\
    fcols d = detail_columns /\
    Forall2 (fun r out =>
      let w := coerced parse (nth_cell 2 r) in
      let n := coerced parse (nth_cell 4 r) in
      exists p,
        field d WEIGHT out = CNum w /\ field d QTY out = CNum n /\
        field d PCR out = CNum p /\
        field d "Total Weight (lb)" out = CNum (w * n / GRAMS_PER_LB) /\
        field d "PCR Weight (lb)" out = CNum (w * n / GRAMS_PER_LB * (p / 100)) /\
        field d "PCR Weight (kg)" out
          = CNum (w * n / GRAMS_PER_LB * (p / 100) * KG_PER_LB) /\
        field d "Avoided CO₂ (metric tons)" out
          = CNum (w * n / GRAMS_PER_LB * (p / 100) * KG_PER_LB * pet_pcr_benefit / 1000))
      rows (frows d)) /\
  (forall w q p,
     ((exists x, w = FFin x /\ x == 0) /\ is_finite q = true \/
      (exists x, q = FFin x /\ x == 0) /\ is_finite w = true) ->
     Forall (fun v => exists x, v = FFin x /\ x == 0) (detail_row_f pet_pcr_benefit w q p)).
Proof.
  intros Hlen; split.
  2:{ intros w q p H.
      assert (Hwq : exists x y, w = FFin x /\ q = FFin y /\ (x == 0 \/ y == 0)).
      { destruct H as [[[x [-> Hx]] Hq] | [[y [-> Hy]] Hw]].
        - destruct q as [y| |]; try discriminate; exists x, y; auto.
        - destruct w as [x| |]; try discriminate; exists x, y; auto. }
      destruct Hwq as [x [y [-> [-> Hz]]]].
      destruct (fclip_fin p) as [z Hp].
      unfold detail_row_f; cbn [ffillna0]; rewrite Hp; cbn [fmul fdiv_pos].
      repeat constructor; eexists; split; try reflexivity;
        destruct Hz as [Hz|Hz]; unfold Qdiv; rewrite Hz; ring. }
  eexists. split.
  { unfold detail_table, coerce_edited.
    rewrite (map_col_at _ _ _ 4%nat) by reflexivity; cbn [bind].
    rewrite (map_col_at _ _ _ 2%nat) by reflexivity; cbn [bind].
    rewrite (map_col_at _ _ _ 3%nat) by reflexivity; cbn [bind].
    rewrite (get_col_at _ _ 2%nat) by reflexivity; cbn [bind].
    rewrite (get_col_at _ _ 4%nat) by reflexivity; cbn [bind].
    rewrite zip_with_map2, map_map.
    rewrite set_col_new by reflexivity; cbn [bind].
    rewrite (get_col_at _ _ 5%nat) by reflexivity; cbn [bind].
    rewrite (get_col_at _ _ 3%nat) by reflexivity; cbn [bind].
    rewrite zip_with_map2.
    rewrite set_col_new by reflexivity; cbn [bind].
    rewrite (get_col_at _ _ 6%nat) by reflexivity; cbn [bind].
    rewrite map_map, set_col_new by reflexivity; cbn [bind].
    rewrite (get_col_at _ _ 7%nat) by reflexivity; cbn [bind].
    rewrite map_map, set_col_new by reflexivity.
    reflexivity. }
  split; [reflexivity |].
  cbn [fcols frows]. rewrite !map_map. apply Forall2_map_r.
  eapply Forall_impl; [| exact Hlen]. intros r Hr.
  destruct r as [|a [|b [|c [|d [|e [|? ?]]]]]]; simpl in Hr; try discriminate.
  cbn -[to_numeric fillna clip Qdiv Qmult].
  rewrite !fill_coerced.
  destruct (clip_num 0 100 (coerced parse d)) as [p [Hp _]]; [discriminate |].
  rewrite Hp. exists p.
  repeat split; reflexivity.
Qed.

(** C4: every row that survives [load_xlsx] and every row the calculator
    computes from (after its re-coercion of the editor's frame) has a PCR%
    that is a number in [0, 100], whatever the raw PCR% values were. *)
Theorem pcr_percent_clamped parse ns raw out rows :
  load_xlsx parse ns raw = inr out ->
  Forall (fun r => List.length r = 5) rows ->
  Forall (pcr_in_range out) (frows out) /\
  exists e, coerce_edited parse (mkFrame calc_columns rows) = inr e /\
            Forall (pcr_in_range e) (frows e).
Proof.
  intros Hload Hlen; split; [exact (load_xlsx_pcr_in_range _ _ _ _ Hload)|].
  eexists; split; [exact (coerce_edited_rows _ _ Hlen)|].
  apply Forall_map, Forall_forall; intros r _; apply coerce_row_pcr_in_range.
Qed.

Lemma pcr_percent_clamped_witness :
  load_xlsx ex_parse ex_num_str ex_catalog = inr ex_catalog_loaded /\
  Forall (fun r => List.length r = 5) ex_edited_rows /\
  Forall (pcr_in_range ex_catalog_loaded) (frows ex_catalog_loaded).
Proof.
  split; [vm_compute; reflexivity|]. split; [repeat constructor|].
  exact (proj1 (pcr_percent_clamped ex_parse ex_num_str ex_catalog ex_catalog_loaded
                  ex_edited_rows (ltac:(vm_compute; reflexivity)) (ltac:(repeat constructor)))).
Defined.

Lemma detail_formula_chain_witness :
  Forall (fun r => List.length r = 5) ex_edited_rows /\
  exists d, detail_table ex_parse (17 # 10) (mkFrame calc_columns ex_edited_rows) = inr d /\
            fcols d = detail_columns.
Proof.
  split; [repeat constructor|].
  destruct (detail_formula_chain ex_parse (17 # 10) ex_edited_rows
              (ltac:(repeat constructor))) as [[d [Hd [Hc _]]] _].
  exists d; split; assumption.
Defined.

(** C1 as stated fails on infinite values: [pd.to_numeric] reads a ledger
    quantity "inf" as a float infinity, which the merge carries into the
    calculator; with a catalog weight of 0, 0 * inf is NaN and every detail
    column is NaN, not 0. *)
Lemma detail_zero_weight_inf_quantity :
  ~ (forall b w q p,
       ((exists x, w = FFin x /\ x == 0) \/ (exists x, q = FFin x /\ x == 0)) ->
       Forall (fun v => exists x, v = FFin x /\ x == 0) (detail_row_f b w q p)).
Proof.
  intros H.
  specialize (H (17 # 10) (FFin 0) (FInf false) (FFin 40)
                (or_introl (ex_intro _ 0%Q (conj eq_refl (Qeq_refl 0))))).
  apply Forall_inv in H; destruct H as [x [Hv _]].
  vm_compute in Hv; discriminate.
Qed.

(** C6, as the code has it: the calculator turns a quantity or weight that
    is not a number into 0 but keeps every number as it is, negative ones
    included; it turns a PCR% that is not a number into 0 and clamps every
    PCR% into [0, 100]. *)
Theorem calculator_coercion parse rows :
  Forall (fun r => List.length r = 5) rows ->
  exists e, coerce_edited parse (mkFrame calc_columns rows) = inr e /\
    Forall2 (fun r out =>
      field e QTY out = CNum (coerced parse (nth_cell 4 r)) /\
      field e WEIGHT out = CNum (coerced parse (nth_cell 2 r)) /\
      field e PCR out = clip 0 100 (CNum (coerced parse (nth_cell 3 r))) /\
      pcr_in_range e out) rows (frows e).
Proof.
  intros Hlen; eexists; split; [exact (coerce_edited_rows _ _ Hlen)|].
  cbn [frows]; apply Forall2_map_r, Forall_forall; intros r _.
  split; [reflexivity|]; split; [reflexivity|]; split; [reflexivity|].
  apply coerce_row_pcr_in_range.
Qed.

Lemma calculator_coercion_witness :
  Forall (fun r => List.length r = 5) ex_edited_rows /\
  exists e, coerce_edited ex_parse (mkFrame calc_columns ex_edited_rows) = inr e.
Proof.
  split; [repeat constructor|].
  destruct (calculator_coercion ex_parse ex_edited_rows (ltac:(repeat constructor)))
    as [e [He _]].
  exists e; exact He.
Defined.

(** C6 as stated fails: a negative weight (-5) and a negative quantity
    ("-3") reach the formulas unchanged instead of being treated as 0. *)
Lemma calculator_keeps_negatives :
  ~ (forall parse rows e,
       coerce_edited parse (mkFrame calc_columns rows) = inr e ->
       Forall (fun r => exists w n, field e WEIGHT r = CNum w /\ field e QTY r = CNum n /\
                                    (0 <= w)%Q /\ (0 <= n)%Q) (frows e)).
Proof.
  intros H.
  specialize (H ex_parse ex_edited_rows _
                (coerce_edited_rows ex_parse ex_edited_rows (ltac:(repeat constructor)))).
  inversion H as [|r rs Hr _]; clear H.
  destruct Hr as [w [n [Hw [Hn [Hw0 _]]]]].
  vm_compute in Hw; injection Hw as <-.
  apply Hw0; reflexivity.
Qed.

(** C7: [normalize_cols] fails if and only if some canonical field has none
    of its aliases among the trimmed headers; the error then carries every
    such field and the full list of trimmed headers (the two lists its
    message prints); a catalog with no weight alias fails naming
    "Weight (g)". *)
Theorem schema_error_iff raw :
  let cols := map strip (fcols raw) in
  ((exists e, normalize_cols raw = inl e) <->
     exists t opts, In (t, opts) catalog_candidates /\ forall a, In a opts -> ~ In a cols) /\
  (forall e, normalize_cols raw = inl e ->
     exists missing, e = SchemaError missing cols /\
       forall t, In t missing <->
         exists opts, In (t, opts) catalog_candidates /\ forall a, In a opts -> ~ In a cols) /\
  ((forall a, In a ["Weight (g)"; "Gram Weight"; "Gram Weight (g)"; "Grams"; "Weight Grams";
                    "Weight_g"; "Weight"] -> ~ In a cols) ->
     exists missing, normalize_cols raw = inl (SchemaError missing cols) /\ In WEIGHT missing).
Proof.
  intros cols; rewrite normalize_cols_eq; fold cols.
  assert (Hw : (forall a, In a ["Weight (g)"; "Gram Weight"; "Gram Weight (g)"; "Grams";
                              "Weight Grams"; "Weight_g"; "Weight"] -> ~ In a cols) ->
               In WEIGHT (unresolved_fields catalog_candidates cols)).
  { intros H; apply In_unresolved; eexists; split; [|exact H]; simpl; auto. }
  destruct (unresolved_fields catalog_candidates cols) as [|m ms] eqn:U.
  - split; [|split].
    + split; [intros [e He]; discriminate|].
      intros [t [opts H]].
      assert (Ht : In t (unresolved_fields catalog_candidates cols))
        by (apply In_unresolved; eauto).
      rewrite U in Ht; contradiction.
    + intros e He; discriminate.
    + intros H; apply Hw in H; contradiction.
  - split; [|split].
    + split; [intros _|eauto].
      exists m; apply In_unresolved; rewrite U; left; reflexivity.
    + intros e He; injection He as <-; exists (m :: ms); split; [reflexivity|].
      intros t; rewrite <- U; apply In_unresolved.
    + intros H; apply Hw in H; eauto.
Qed.

Lemma schema_error_iff_witness :
  exists missing,
    normalize_cols (mkFrame ["Part #"; "Description"; "PCR%"] []) = inl (SchemaError missing ["Part #"; "Description"; "PCR%"]) /\
    In WEIGHT missing.
Proof.
  destruct (schema_error_iff (mkFrame ["Part #"; "Description"; "PCR%"] [])) as [_ [_ H]].
  apply H; simpl; intros a Ha; intuition (subst; discriminate).
Defined.

(** C8: for a canonical field with at least one alias among the trimmed
    headers, [normalize_cols] binds it to the first alias of its list that
    is present (no earlier alias is present); the choice depends only on
    which headers are present, not on their order or on the other fields;
    on success that header is renamed to the canonical name. *)
Theorem first_alias_binds raw t opts :
  In (t, opts) catalog_candidates ->
  (exists a, In a opts /\ In a (map strip (fcols raw))) ->
  let cols := map strip (fcols raw) in
  exists a pre post,
    opts = (pre ++ a :: post)%list /\ In a cols /\ Forall (fun b => ~ In b cols) pre /\
    In (t, a) (resolve catalog_candidates cols) /\
    (forall raw', (forall x, In x (map strip (fcols raw')) <-> In x cols) ->
       In (t, a) (resolve catalog_candidates (map strip (fcols raw')))) /\
    (forall out, normalize_cols raw = inr out ->
       forall j, j < List.length cols -> nth j cols "" = a -> nth j (fcols out) "" = t).
Proof.
  intros Hin [b [Hb Hbc]] cols.
  destruct (first_present opts cols) as [a|] eqn:F.
  2:{ exfalso; apply first_present_none in F.
      assert (existsb (fun a => mem a cols) opts = true)
        by (apply existsb_exists; exists b; split; [exact Hb | apply mem_In; exact Hbc]).
      congruence. }
  pose proof F as F'; unfold first_present in F'; apply find_first in F' as [pre [post [Ho [Ea Hpre]]]].
  exists a, pre, post; split; [exact Ho|]; split; [apply mem_In; exact Ea|].
  split.
  { eapply Forall_impl; [|exact Hpre]; intros x Hx; apply mem_false; exact Hx. }
  assert (Hres : In (t, a) (resolve catalog_candidates cols))
    by exact (resolve_In _ _ _ _ _ catalog_targets_NoDup Hin F).
  split; [exact Hres|]; split.
  - intros raw' Hx; apply (resolve_In _ opts); [exact catalog_targets_NoDup|exact Hin|].
    rewrite (first_present_ext _ _ cols Hx); exact F.
  - intros out Hout j Hj Hja.
    rewrite normalize_cols_eq in Hout; fold cols in Hout.
    destruct (unresolved_fields catalog_candidates cols); [|discriminate].
    injection Hout as <-; cbn [rename fcols].
    rewrite (nth_indep _ "" (rename_col (map (fun p => (snd p, fst p))
                                          (resolve catalog_candidates cols)) ""))
      by (rewrite length_map; exact Hj).
    rewrite map_nth, Hja; apply rename_resolved; exact Hres.
Qed.

Lemma first_alias_binds_witness :
  exists a, In (WEIGHT, a) (resolve catalog_candidates (map strip (fcols ex_catalog))).
Proof.
  assert (Hin : In (WEIGHT, ["Weight (g)"; "Gram Weight"; "Gram Weight (g)"; "Grams";
                              "Weight Grams"; "Weight_g"; "Weight"]) catalog_candidates)
    by (simpl; auto).
  assert (Hex : exists a, In a ["Weight (g)"; "Gram Weight"; "Gram Weight (g)"; "Grams";
                                "Weight Grams"; "Weight_g"; "Weight"] /\
                          In a (map strip (fcols ex_catalog)))
    by (exists "Grams"; split; simpl; auto 10).
  destruct (first_alias_binds ex_catalog _ _ Hin Hex)
    as [a [pre [post [_ [_ [_ [Hres _]]]]]]].
  exists a; exact Hres.
Defined.

(** C10: header matching in both loaders is exact after trimming: adding a
    header that differs from an alias only in letter case never changes
    which alias a field binds to; a catalog in which some canonical field
    has no exact alias among its trimmed headers fails to load with that
    field among the missing fields, and a ledger with no exact part-number
    alias or no exact quantity alias fails with the purchase schema
    error. *)
Theorem header_match_case_sensitive parse ns raw rawp :
  (forall t opts a h cols,
     In (t, opts) (catalog_candidates ++ [(PN, pn_candidates); (QTY, qty_candidates)])%list ->
     In a opts -> lower h = lower a -> h <> a ->
     first_present opts (h :: cols) = first_present opts cols) /\
  (forall t opts, In (t, opts) catalog_candidates ->
     (forall a, In a opts -> ~ In a (map strip (fcols raw))) ->
     exists missing,
       load_xlsx parse ns raw = inl (SchemaError missing (map strip (fcols raw))) /\
       In t missing) /\
  ((forall a, In a pn_candidates -> ~ In a (map strip (fcols rawp))) \/
   (forall a, In a qty_candidates -> ~ In a (map strip (fcols rawp))) ->
   load_purchase_csv parse ns rawp = inl (PurchaseSchemaError (map strip (fcols rawp)))).
Proof.
  split; [|split].
  - intros t opts a h cols Ht Ha El Ne; apply first_present_skip.
    intros o Ho ->; apply Ne; exact (aliases_case_distinct _ _ _ _ Ht Ho Ha El).
  - intros t opts Ht H; exact (load_xlsx_unresolved _ _ _ _ _ Ht H).
  - intros [H|H]; [exact (load_purchase_no_pn _ _ _ H) | exact (load_purchase_no_qty _ _ _ H)].
Qed.

Lemma header_match_case_sensitive_witness :
  (exists missing,
     load_xlsx ex_parse ex_num_str
       (mkFrame ["Vendor Part Number"; "Item Description"; "Weight (g)"; "pcr %"] [])
     = inl (SchemaError missing ["Vendor Part Number"; "Item Description"; "Weight (g)"; "pcr %"]) /\
     In PCR missing) /\
  load_purchase_csv ex_parse ex_num_str (mkFrame ["part number"; "Qty"] [])
  = inl (PurchaseSchemaError ["part number"; "Qty"]).
Proof.
  destruct (header_match_case_sensitive ex_parse ex_num_str
              (mkFrame ["Vendor Part Number"; "Item Description"; "Weight (g)"; "pcr %"] [])
              (mkFrame ["part number"; "Qty"] []))
    as [_ [Hx Hp]].
  split.
  - apply (Hx PCR ["PCR %"; "PCR%"; "PCR Content"; "PCR Content %"; "% PCR"; "Post-Consumer %"]).
    + simpl; auto 10.
    + simpl; intros a Ha Hc; intuition (subst; discriminate).
  - apply Hp; left; simpl; intros a Ha Hc; intuition (subst; discriminate).
Defined.

(** C3: for a ledger whose trimmed headers are pairwise distinct, the
    ledger loader keeps every row: a quantity that is not a number
    counts as 0; rows are grouped by trimmed part number, each part number
    appears once in the output, with the sum of the coerced quantities of
    its rows; two rows of "A-1" with 100 and 250 give one row with 350. *)
Theorem purchase_rows_aggregated parse ns raw pn qty ipn iq :
  NoDup (map strip (fcols raw)) ->
  Forall (fun r => List.length r = List.length (fcols raw)) (frows raw) ->
  first_present pn_candidates (map strip (fcols raw)) = Some pn ->
  first_present qty_candidates (map strip (fcols raw)) = Some qty ->
  col_index pn (map strip (fcols raw)) = Some ipn ->
  col_index qty (map strip (fcols raw)) = Some iq ->
  (exists out,
     load_purchase_csv parse ns raw = inr out /\
     fcols out = [PN; QTY] /\
     NoDup (map (nth_cell 0) (frows out)) /\
     (forall r, In r (frows raw) ->
        In [ledger_key ns ipn r; CNum (ledger_total parse ns ipn iq (frows raw) (ledger_key ns ipn r))]
           (frows out)) /\
     (forall o, In o (frows out) -> exists r, In r (frows raw) /\
        o = [ledger_key ns ipn r; CNum (ledger_total parse ns ipn iq (frows raw) (ledger_key ns ipn r))])) /\
  (forall r, to_numeric parse (nth_cell iq r) = CNaN -> ledger_qty parse iq r = 0%Q) /\
  load_purchase_csv parse ns ex_ledger_dup = inr (mkFrame [PN; QTY] [[CStr "A-1"; CNum 350]]).
Proof.
  intros _ Hwf Hpn Hq Ipn Iq; split; [|split].
  - eexists; split; [exact (load_purchase_csv_eq parse ns raw pn qty ipn iq Hwf Hpn Hq Ipn Iq)|].
    cbn [fcols frows]; split; [reflexivity|]; split; [|split].
    + rewrite map_map; cbn [nth_cell nth]; rewrite map_id.
      apply (Permutation_NoDup (sort_keys_perm _)); apply dedup_NoDup.
    + intros r Hr.
      destruct (ledger_key_str ns ipn r) as [s' Hs].
      destruct (dedup_complete (map (ledger_key ns ipn) (frows raw)) (ledger_key ns ipn r))
        as [y [Ey Iy]]; [apply in_map; exact Hr|].
      rewrite Hs in Ey; apply cell_eqb_str in Ey; subst y.
      apply in_map_iff; exists (CStr s'); rewrite Hs; split; [reflexivity|].
      apply (Permutation_in _ (sort_keys_perm _)); exact Iy.
    + intros o Ho; apply in_map_iff in Ho as [k [<- Hk]].
      apply (Permutation_in _ (Permutation_sym (sort_keys_perm _))), dedup_incl in Hk.
      apply in_map_iff in Hk as [r [<- Hr]]; exists r; split; [exact Hr | reflexivity].
  - intros r H; unfold ledger_qty, coerced; rewrite H; reflexivity.
  - reflexivity.
Qed.

Lemma purchase_rows_aggregated_witness :
  exists out,
    load_purchase_csv ex_parse ex_num_str ex_ledger = inr out /\
    fcols out = [PN; QTY] /\
    NoDup (map (nth_cell 0) (frows out)) /\
    (forall r, In r (frows ex_ledger) ->
       In [ledger_key ex_num_str 0 r;
           CNum (ledger_total ex_parse ex_num_str 0 1 (frows ex_ledger) (ledger_key ex_num_str 0 r))]
          (frows out)) /\
    (forall o, In o (frows out) -> exists r, In r (frows ex_ledger) /\
       o = [ledger_key ex_num_str 0 r;
            CNum (ledger_total ex_parse ex_num_str 0 1 (frows ex_ledger) (ledger_key ex_num_str 0 r))]).
Proof.
  apply (purchase_rows_aggregated ex_parse ex_num_str ex_ledger "Part #" "Qty" 0 1);
    [vm_compute; repeat constructor; simpl; intuition discriminate
    | repeat constructor | reflexivity | reflexivity | reflexivity | reflexivity].
Defined.

(** C2: merging an aggregated purchase set (one row per part number) into
    the catalog sets the quantity of every catalog row whose part number is
    in the purchase set to the purchase quantity, replacing the old value,
    keeps the quantity of every other row and every other column; merging
    the same set again gives the same frame, and merging a second set
    afterwards gives every row it matches exactly the second quantity. *)
Theorem merge_replaces_quantity df l l2 ip iq :
  Forall (fun r => List.length r = List.length (fcols df)) (frows df) ->
  Forall (fun c => ends_with "_csv" c = false) (fcols df) ->
  col_index PN (fcols df) = Some ip -> col_index QTY (fcols df) = Some iq ->
  NoDup (map fst l) -> NoDup (map fst l2) ->
  exists out,
    apply_purchases df (purchase_frame l) = inr out /\
    fcols out = fcols df /\
    Forall2 (fun r o =>
      (forall k q, In (k, q) l -> field df PN r = CStr k -> field out QTY o = CNum q) /\
      ((forall k q, In (k, q) l -> field df PN r <> CStr k) -> field out QTY o = field df QTY r) /\
      (forall c, c <> QTY -> field out c o = field df c r)) (frows df) (frows out) /\
    apply_purchases out (purchase_frame l) = inr out /\
    exists out2,
      apply_purchases out (purchase_frame l2) = inr out2 /\
      Forall2 (fun r o2 =>
        forall k q2, In (k, q2) l2 -> field df PN r = CStr k -> field out2 QTY o2 = CNum q2)
        (frows df) (frows out2).
Proof.
  intros Hwf Hcsv Hp Hq Hl Hl2.
  pose proof (PN_QTY_index_distinct _ _ _ Hp Hq) as Hne.
  set (F := fun r => replace_nth iq (merged_qty l (nth_cell ip r) (nth_cell iq r)) r).
  set (out := mkFrame (fcols df) (map F (frows df))).
  assert (Hwf' : Forall (fun r => List.length r = List.length (fcols out)) (frows out))
    by exact (merge_rows_wf df l ip iq Hwf).
  exists out; split; [exact (apply_purchases_eq df l ip iq Hwf Hcsv Hp Hq Hl)|].
  split; [reflexivity|]; split; [|split].
  - apply Forall2_map_r; rewrite Forall_forall in *; intros r Hr; specialize (Hwf r Hr).
    change (field out) with (field df).
    rewrite (field_at df PN ip) by exact Hp; split; [|split].
    + intros k q Hin E; unfold F; rewrite (field_replace_qty df iq) by auto.
      rewrite E; exact (merged_qty_hit l k q _ Hl Hin).
    + intros Hmiss; unfold F; rewrite (field_replace_qty df iq) by auto.
      rewrite (field_at df QTY iq) by exact Hq; exact (merged_qty_miss l _ _ Hmiss).
    + intros c Hc; unfold F; apply field_replace_other; auto.
  - rewrite (apply_purchases_eq out l ip iq Hwf' Hcsv Hp Hq Hl).
    unfold out; cbn [fcols frows]; rewrite map_map; do 2 f_equal.
    apply map_ext_in; intros r Hr; unfold F.
    rewrite nth_cell_replace_other by (apply not_eq_sym; exact Hne).
    rewrite nth_cell_replace_same.
    rewrite Forall_forall in Hwf; specialize (Hwf r Hr).
    replace (iq <? List.length r) with true
      by (symmetry; apply Nat.ltb_lt; rewrite Hwf; exact (proj1 (col_index_nth _ _ _ Hq))).
    rewrite merged_qty_idem, replace_nth_twice; reflexivity.
  - eexists; split; [exact (apply_purchases_eq out l2 ip iq Hwf' Hcsv Hp Hq Hl2)|].
    cbn [frows]; unfold out; cbn [frows]; rewrite map_map; apply Forall2_map_r.
    rewrite Forall_forall in *; intros r Hr k q2 Hin E; specialize (Hwf r Hr); cbn beta.
    change (field _ QTY ?x) with (field df QTY x).
    rewrite (field_replace_qty df iq) by (auto; unfold F; rewrite replace_nth_length; exact Hwf).
    unfold F; rewrite nth_cell_replace_other by (apply not_eq_sym; exact Hne).
    rewrite (field_at df PN ip) in E by exact Hp; rewrite E.
    exact (merged_qty_hit l2 k q2 _ Hl2 Hin).
Qed.

Lemma merge_replaces_quantity_witness :
  exists out,
    apply_purchases ex_catalog_loaded (purchase_frame [("A-1", 5%Q)]) = inr out /\
    fcols out = fcols ex_catalog_loaded /\
    Forall2 (fun r o =>
      (forall k q, In (k, q) [("A-1", 5%Q)] -> field ex_catalog_loaded PN r = CStr k ->
                   field out QTY o = CNum q) /\
      ((forall k q, In (k, q) [("A-1", 5%Q)] -> field ex_catalog_loaded PN r <> CStr k) ->
       field out QTY o = field ex_catalog_loaded QTY r) /\
      (forall c, c <> QTY -> field out c o = field ex_catalog_loaded c r))
      (frows ex_catalog_loaded) (frows out) /\
    apply_purchases out (purchase_frame [("A-1", 5%Q)]) = inr out /\
    exists out2,
      apply_purchases out (purchase_frame [("B-2", 7%Q)]) = inr out2 /\
      Forall2 (fun r o2 =>
        forall k q2, In (k, q2) [("B-2", 7%Q)] -> field ex_catalog_loaded PN r = CStr k ->
                     field out2 QTY o2 = CNum q2)
        (frows ex_catalog_loaded) (frows out2).
Proof.
  apply (merge_replaces_quantity ex_catalog_loaded [("A-1", 5%Q)] [("B-2", 7%Q)] 0 4);
    [repeat constructor | repeat constructor | reflexivity | reflexivity
    | repeat constructor; simpl; tauto | repeat constructor; simpl; tauto].
Defined.

(** C9: when the catalog lists part number [k] on several rows and the
    purchase set has quantity [q] for [k], the merge gives every one of
    these rows the quantity [q], so their quantities sum to (number of
    rows) * q. *)
Theorem duplicate_rows_get_full_quantity df l ip iq k q :
  Forall (fun r => List.length r = List.length (fcols df)) (frows df) ->
  Forall (fun c => ends_with "_csv" c = false) (fcols df) ->
  col_index PN (fcols df) = Some ip -> col_index QTY (fcols df) = Some iq ->
  NoDup (map fst l) -> In (k, q) l ->
  exists out,
    apply_purchases df (purchase_frame l) = inr out /\
    map (field out QTY) (rows_with_pn out k) = repeat (CNum q) (List.length (rows_with_pn df k)) /\
    sum_qty (map (field out QTY) (rows_with_pn out k))
      == inject_Z (Z.of_nat (List.length (rows_with_pn df k))) * q.
Proof.
  intros Hwf Hcsv Hp Hq Hl Hin.
  set (F := fun r => replace_nth iq (merged_qty l (nth_cell ip r) (nth_cell iq r)) r).
  assert (Hrows : map (field (mkFrame (fcols df) (map F (frows df))) QTY)
                    (rows_with_pn (mkFrame (fcols df) (map F (frows df))) k)
                  = repeat (CNum q) (List.length (rows_with_pn df k))).
  { unfold rows_with_pn; cbn [frows]; rewrite filter_map_comm, map_map.
    change (field (mkFrame (fcols df) _)) with (field df).
    rewrite (filter_ext_in (fun x => cell_eqb (field df PN (F x)) (CStr k))
                           (fun r => cell_eqb (field df PN r) (CStr k))).
    2:{ intros r _; unfold F; rewrite field_replace_other by (auto; discriminate); reflexivity. }
    rewrite <- map_const_repeat; apply map_ext_in; intros r Hr.
    apply filter_In in Hr as [Hr E]; apply cell_eqb_str_r in E.
    rewrite Forall_forall in Hwf; specialize (Hwf r Hr).
    unfold F; rewrite (field_replace_qty df iq) by auto.
    rewrite <- (field_at df PN ip r Hp), E; exact (merged_qty_hit l k q _ Hl Hin). }
  exists (mkFrame (fcols df) (map F (frows df))).
  split; [exact (apply_purchases_eq df l ip iq Hwf Hcsv Hp Hq Hl)|].
  split; [exact Hrows|]; rewrite Hrows; apply sum_qty_repeat.
Qed.

Lemma duplicate_rows_get_full_quantity_witness :
  exists out,
    apply_purchases
      (mkFrame [PN; QTY] [[CStr "A-1"; CNum 0]; [CStr "A-1"; CNum 0]; [CStr "B-2"; CNum 0]])
      (purchase_frame [("A-1", 350%Q)]) = inr out /\
    map (field out QTY) (rows_with_pn out "A-1") = repeat (CNum 350) 2 /\
    sum_qty (map (field out QTY) (rows_with_pn out "A-1")) == inject_Z 2 * 350.
Proof.
  apply (duplicate_rows_get_full_quantity
           (mkFrame [PN; QTY] [[CStr "A-1"; CNum 0]; [CStr "A-1"; CNum 0]; [CStr "B-2"; CNum 0]])
           [("A-1", 350%Q)] 0 1 "A-1" 350);
    [repeat constructor | repeat constructor | reflexivity | reflexivity
    | repeat constructor; simpl; tauto | simpl; left; reflexivity].
Defined.

(** C5: a catalog row whose part number cell is empty is not dropped by
    the load: [astype(str)] turns the missing part number into the text
    "nan" before [dropna] looks at it, so the row survives with part number
    "nan" and quantity 0, although its weight and PCR% are the only fields
    present. *)
Theorem missing_part_number_kept parse ns :
  load_xlsx parse ns
    (mkFrame [PN; DESC; WEIGHT; PCR] [[CNaN; CStr "cap"; CNum 50; CNum 20]])
  = inr (mkFrame [PN; DESC; WEIGHT; PCR; QTY]
           [[CStr "nan"; CStr "cap"; CNum 50; CNum 20; CNum 0]]).
Proof. reflexivity. Qed.

(** X1: The list of purchase part numbers missing from the catalog (lines
    167-172): it is [None] exactly when every purchase part number is in the
    catalog; otherwise it is sorted, has no repeats, and holds exactly the
    purchase part numbers the catalog lacks. *)
Theorem unmatched_part_numbers db purchases :
  In PN (fcols db) -> In PN (fcols purchases) ->
  exists u, unmatched_pns db purchases = inr u /\
    (u = None <->
       forall x, In x (map (field purchases PN) (frows purchases)) ->
         exists y, In y (map (field db PN) (frows db)) /\ cell_eqb x y = true) /\
    (forall m, u = Some m ->
       Sorted cell_le m /\ NoDup m /\
       (forall x, In x m ->
          In x (map (field purchases PN) (frows purchases)) /\
          forall y, In y (map (field db PN) (frows db)) -> cell_eqb x y = false) /\
       (forall x, In x (map (field purchases PN) (frows purchases)) ->
          (forall y, In y (map (field db PN) (frows db)) -> cell_eqb x y = false) ->
          exists x', cell_eqb x x' = true /\ In x' m)).
Proof.
  intros Hd Hp.
  destruct (col_index_In _ _ Hd) as [i Hi]; destruct (col_index_In _ _ Hp) as [j Hj].
  rewrite (map_field_at db PN i Hi), (map_field_at purchases PN j Hj).
  unfold unmatched_pns; rewrite (get_col_at _ _ _ Hi); cbn [bind].
  rewrite (get_col_at _ _ _ Hj); cbn [bind ret].
  set (d := map (nth_cell i) (frows db)); set (p := map (nth_cell j) (frows purchases)).
  set (M := sort_keys (filter (fun c => negb (existsb (cell_eqb c) d)) (dedup p))).
  assert (Hcomplete : forall x, In x p -> (forall y, In y d -> cell_eqb x y = false) ->
                        exists x', cell_eqb x x' = true /\ In x' M).
  { intros x Hx Hno; destruct (dedup_complete p x Hx) as [x' [E Hx']].
    exists x'; split; [exact E|]; apply unmatched_in; split; [exact Hx'|].
    intros y Hy; destruct (cell_eqb x' y) eqn:E'; [|reflexivity].
    pose proof (Hno y Hy) as N; rewrite (cell_eqb_trans _ _ _ E E') in N; discriminate. }
  eexists; split; [reflexivity|]; split.
  - destruct M as [|c M'] eqn:EM; split; intros H; try discriminate.
    + intros x Hx; destruct (existsb (cell_eqb x) d) eqn:Ex.
      * apply existsb_exists in Ex as [y [Hy E]]; eauto.
      * destruct (Hcomplete x Hx (proj1 (existsb_false_iff _ _) Ex)) as [x' [_ Hx']].
        contradiction.
    + reflexivity.
    + exfalso; assert (Hc : In c M) by (rewrite EM; left; reflexivity).
      apply unmatched_in in Hc as [Hc Hno].
      destruct (H c (dedup_incl _ _ Hc)) as [y [Hy E]]; rewrite (Hno y Hy) in E; discriminate.
  - intros m Hm; assert (m = M) by (destruct M; congruence); subst m.
    split; [apply sort_keys_sorted|]; split.
    + apply (Permutation_NoDup (sort_keys_perm _)), NoDup_filter', dedup_NoDup.
    + split; [|exact Hcomplete].
      intros x Hx; apply unmatched_in in Hx as [Hx Hno]; split; [exact (dedup_incl _ _ Hx) | exact Hno].
Qed.

(** X2: The aggregated purchase set [load_purchase_csv] returns lists its part
    numbers, all strings, in strictly ascending order (the order of
    [groupby]'s sorted keys), whatever the ledger holds. *)
Theorem purchase_output_sorted parse ns raw out :
  load_purchase_csv parse ns raw = inr out ->
  Sorted (fun a b => cell_ltb a b = true) (map (nth_cell 0) (frows out)) /\
  (forall o, In o (frows out) -> exists s q, o = [CStr s; q]).
Proof.
  unfold load_purchase_csv; intros H.
  destruct (first_present pn_candidates _) as [pn|]; [|discriminate].
  destruct (first_present qty_candidates _) as [qty|]; [|discriminate].
  destruct (map_col PN _ _) as [|df2] eqn:E2; cbn [bind] in H; [discriminate|].
  apply map_col_inv in E2 as [i1 [Hi1 ->]].
  destruct (map_col QTY _ _) as [|df3] eqn:E3; cbn [bind] in H; [discriminate|].
  apply map_col_inv in E3 as [i2 [Hi2 ->]]; cbn [fcols] in Hi2.
  assert (Hne : i1 <> i2) by (exact (PN_QTY_index_distinct _ _ _ Hi1 Hi2)).
  unfold groupby_sum in H.
  rewrite (get_col_at PN _ i1) in H by exact Hi1; cbn [bind] in H.
  rewrite (get_col_at QTY _ i2) in H by exact Hi2; cbn [bind ret frows] in H.
  injection H as <-; cbn [frows]; rewrite map_map; cbn [nth_cell nth]; rewrite map_id.
  set (ks := map (nth_cell i1) _).
  assert (Hks : forall c, In c (sort_keys (dedup (filter (fun c => negb (isna c)) ks))) ->
                  exists s, c = CStr s).
  { intros c Hc.
    apply (Permutation_in _ (Permutation_sym (sort_keys_perm _))), dedup_incl, filter_In in Hc
      as [Hc Hnan].
    unfold ks in Hc; rewrite !map_map in Hc; apply in_map_iff in Hc as [r [<- _]].
    rewrite nth_cell_replace_other in Hnan |- * by (apply not_eq_sym; exact Hne).
    rewrite nth_cell_replace_same in Hnan |- *.
    destruct (i1 <? List.length r); [|discriminate].
    unfold str_col, astype_str, str_strip; eexists; reflexivity. }
  split.
  - apply sorted_strict; [apply sort_keys_sorted | | exact Hks].
    apply (Permutation_NoDup (sort_keys_perm _)), dedup_NoDup.
  - intros o Ho; apply in_map_iff in Ho as [k [<- Hk]].
    destruct (Hks k Hk) as [s' ->]; eauto.
Qed.

(** X3: for a ledger whose trimmed headers are pairwise distinct,
    [load_purchase_csv] fails exactly when the trimmed headers hold none
    of the accepted part-number headers or none of the accepted quantity
    headers, and then with the error that lists the trimmed headers; the
    rows never make it fail. *)
Theorem purchase_schema_error_iff parse ns raw e :
  NoDup (map strip (fcols raw)) ->
  load_purchase_csv parse ns raw = inl e <->
  e = PurchaseSchemaError (map strip (fcols raw)) /\
  ((forall a, In a pn_candidates -> ~ In a (map strip (fcols raw))) \/
   (forall a, In a qty_candidates -> ~ In a (map strip (fcols raw)))).
Proof.
  intros _.
  destruct (first_present pn_candidates (map strip (fcols raw))) as [pn|] eqn:Hpn;
    [destruct (first_present qty_candidates (map strip (fcols raw))) as [qty|] eqn:Hq|].
  - destruct (load_purchase_csv_ok parse ns raw pn qty Hpn Hq) as [out Hout].
    rewrite Hout; split; [discriminate|].
    intros [_ [H|H]].
    + apply first_present_None_iff in H; congruence.
    + apply first_present_None_iff in H; congruence.
  - unfold load_purchase_csv; rewrite Hpn, Hq; split.
    + intros He; injection He as <-; split; [reflexivity|].
      right; apply first_present_None_iff; exact Hq.
    + intros [-> _]; reflexivity.
  - unfold load_purchase_csv; rewrite Hpn; split.
    + intros He; injection He as <-; split; [reflexivity|].
      left; apply first_present_None_iff; exact Hpn.
    + intros [-> _]; reflexivity.
Qed.

(** X4: The search box ignores letter case and surrounding blanks: two searches
    that are equal once trimmed of surrounding blanks and with their ASCII
    letters lower-cased give the same view of the working table. *)
Theorem search_case_insensitive str_contains s1 s2 work :
  lower (strip s1) = lower (strip s2) ->
  search_view str_contains s1 work = search_view str_contains s2 work.
Proof.
  intros El.
  assert (Eb : String.eqb (strip s1) "" = String.eqb (strip s2) "").
  { apply Bool.eq_iff_eq_true; rewrite !String.eqb_eq, <- (lower_empty (strip s1)),
      <- (lower_empty (strip s2)), El; reflexivity. }
  unfold search_view; rewrite Eb, El; reflexivity.
Qed.

(** X8: With no negative weight or quantity, the PCR weight lies between 0 and
    the total weight, in pounds and in kilograms: the PCR% is clamped into
    [0, 100]. *)
Theorem pcr_within_total parse b cur rows m :
  Forall (fun r => List.length r = 5) rows ->
  results parse b cur (mkFrame calc_columns rows) = inr m ->
  (forall r, In r rows -> 0 <= coerced parse (nth_cell 2 r) /\ 0 <= coerced parse (nth_cell 4 r))%Q ->
  (0 <= m_pcr_lbs m <= m_total_lbs m /\ 0 <= m_pcr_kg m <= m_total_kg m)%Q.
Proof.
  intros Hlen Hm Hpos; rewrite (results_inv parse b cur rows m Hlen Hm);
    cbn [m_total_kg m_pcr_kg m_total_lbs m_pcr_lbs].
  set (pg := qsum (fun r => coerced parse (nth_cell 2 r) * coerced parse (nth_cell 4 r)
                            * (calc_pcr parse r / 100))%Q rows).
  set (tg := qsum (fun r => coerced parse (nth_cell 2 r) * coerced parse (nth_cell 4 r))%Q rows).
  assert (H0 : (0 <= pg)%Q).
  { apply qsum_nonneg; intros r Hr; destruct (Hpos r Hr) as [Hw Hn].
    destruct (calc_pcr_range parse r) as [Hp _].
    repeat apply Qmult_le_0_compat; try assumption; vm_compute; discriminate. }
  assert (H1 : (pg <= tg)%Q).
  { apply qsum_le; intros r Hr; destruct (Hpos r Hr) as [Hw Hn].
    destruct (calc_pcr_range parse r) as [_ Hp].
    rewrite <- (Qmult_1_r (coerced parse (nth_cell 2 r) * coerced parse (nth_cell 4 r))) at 2.
    apply Qmult_le_compat_nonneg_l; [|apply Qmult_le_0_compat; assumption].
    apply Qle_shift_div_r; [reflexivity|]; rewrite Qmult_1_l; exact Hp. }
  assert (Hd0 : (0 <= pg / GRAMS_PER_LB)%Q).
  { unfold Qdiv; apply Qmult_le_0_compat; [exact H0 | apply inv_grams_per_lb_nonneg]. }
  assert (Hd1 : (pg / GRAMS_PER_LB <= tg / GRAMS_PER_LB)%Q).
  { unfold Qdiv; apply Qmult_le_compat_r; [exact H1 | apply inv_grams_per_lb_nonneg]. }
  split; split; try assumption.
  - apply Qmult_le_0_compat; [exact Hd0 | apply kg_per_lb_nonneg].
  - apply Qmult_le_compat_r; [exact Hd1 | apply kg_per_lb_nonneg].
Qed.

(** X10: On success, [normalize_cols] keeps the rows and the number of columns,
    every canonical field name is among the new headers, and a trimmed
    header that is not the alias chosen for any field keeps its trimmed
    name (a second alias of a field is not renamed). *)
Theorem normalize_cols_success raw out :
  normalize_cols raw = inr out ->
  frows out = frows raw /\
  List.length (fcols out) = List.length (fcols raw) /\
  (forall t, In t (map fst catalog_candidates) -> In t (fcols out)) /\
  (forall j, j < List.length (fcols raw) ->
     let c := nth j (map strip (fcols raw)) "" in
     (forall t, ~ In (t, c) (resolve catalog_candidates (map strip (fcols raw)))) ->
     nth j (fcols out) "" = c).
Proof.
  rewrite normalize_cols_eq.
  set (cols := map strip (fcols raw)).
  destruct (unresolved_fields catalog_candidates cols) as [|m ms] eqn:Hu; [|discriminate].
  remember (resolve catalog_candidates cols) as R eqn:HR.
  intros H; injection H as <-; unfold rename; cbn [fcols frows].
  split; [reflexivity|]; split; [unfold cols; rewrite !length_map; reflexivity|]; split.
  - intros t Ht; apply in_map_iff in Ht as [[t' opts] [E Hin]]; simpl in E; subst t'.
    destruct (first_present opts cols) as [a|] eqn:F.
    + pose proof (resolve_In _ _ _ _ cols catalog_targets_NoDup Hin F) as Hr; rewrite <- HR in Hr.
      apply first_present_In in F as [_ Ha].
      rewrite HR in Hr |- *; rewrite <- (rename_resolved _ _ _ Hr); apply in_map; exact Ha.
    + exfalso; assert (Ht : In t (unresolved_fields catalog_candidates cols))
        by (apply In_unresolved; exists opts; split; [exact Hin|];
            apply first_present_None_iff; exact F).
      rewrite Hu in Ht; contradiction.
  - intros j Hj Hc.
    rewrite (nth_indep _ "" (rename_col (map (fun p => (snd p, fst p)) R) ""))
      by (rewrite length_map; unfold cols; rewrite length_map; exact Hj).
    rewrite map_nth; apply rename_col_other; intros t Hin.
    apply in_map_iff in Hin as [[t' a] [E Hin]]; simpl in E; injection E as -> ->.
    exact (Hc t Hin).
Qed.

Lemma unmatched_part_numbers_witness :
  In PN (fcols ex_catalog_loaded) /\ In PN (fcols ex_purchases) /\
  unmatched_pns ex_catalog_loaded ex_purchases = inr (Some [CStr "Z-9"]) /\
  (forall m, unmatched_pns ex_catalog_loaded ex_purchases = inr (Some m) ->
     Sorted cell_le m /\ NoDup m).
Proof.
  split; [simpl; auto|]; split; [simpl; auto|]; split; [vm_compute; reflexivity|].
  intros m Hm.
  destruct (unmatched_part_numbers ex_catalog_loaded ex_purchases
              (ltac:(simpl; auto)) (ltac:(simpl; auto))) as [u [Hu [_ Hs]]].
  rewrite Hu in Hm; injection Hm as ->.
  destruct (Hs m eq_refl) as [H1 [H2 _]]; split; assumption.
Defined.

Lemma purchase_output_sorted_witness :
  exists out, load_purchase_csv ex_parse ex_num_str ex_ledger = inr out /\
    Sorted (fun a b => cell_ltb a b = true) (map (nth_cell 0) (frows out)).
Proof.
  eexists; split; [reflexivity|].
  exact (proj1 (purchase_output_sorted ex_parse ex_num_str ex_ledger _ eq_refl)).
Defined.

Lemma purchase_schema_error_iff_witness :
  NoDup (map strip (fcols (mkFrame [" Part"; "QTY"] []))) /\
  load_purchase_csv ex_parse ex_num_str (mkFrame [" Part"; "QTY"] [])
  = inl (PurchaseSchemaError ["Part"; "QTY"]).
Proof.
  split; [vm_compute; repeat constructor; simpl; intuition discriminate|].
  apply (purchase_schema_error_iff ex_parse ex_num_str (mkFrame [" Part"; "QTY"] [])
           (PurchaseSchemaError ["Part"; "QTY"])
           (ltac:(vm_compute; repeat constructor; simpl; intuition discriminate))).
  split; [reflexivity|].
  left; simpl; intros a Ha Hc; intuition (subst; discriminate).
Defined.

Lemma search_case_insensitive_witness :
  lower (strip " Cap ") = lower (strip "cap") /\
  search_view ex_contains " Cap " ex_catalog_loaded
  = search_view ex_contains "cap" ex_catalog_loaded.
Proof.
  split; [vm_compute; reflexivity|].
  apply search_case_insensitive; vm_compute; reflexivity.
Defined.

Lemma pcr_within_total_witness :
  exists m, results ex_parse (17 # 10) 30%Q (mkFrame calc_columns ex_calc_rows) = inr m /\
    (0 <= m_pcr_lbs m <= m_total_lbs m)%Q.
Proof.
  assert (Hpos : forall r, In r ex_calc_rows ->
            (0 <= coerced ex_parse (nth_cell 2 r) /\ 0 <= coerced ex_parse (nth_cell 4 r))%Q)
    by (intros r Hr; simpl in Hr; destruct Hr as [<-|[<-|[]]]; split; vm_compute; discriminate).
  eexists; split; [reflexivity|].
  exact (proj1 (pcr_within_total ex_parse (17 # 10) 30%Q ex_calc_rows _
                  (ltac:(repeat constructor)) eq_refl Hpos)).
Defined.

Lemma normalize_cols_success_witness :
  exists out, normalize_cols ex_catalog = inr out /\
    frows out = frows ex_catalog /\ In WEIGHT (fcols out).
Proof.
  eexists; split; [reflexivity|].
  destruct (normalize_cols_success ex_catalog _ eq_refl) as [H1 [_ [H3 _]]].
  split; [exact H1|]; apply H3; right; right; left; reflexivity.
Defined.
